(** * mcpSovereign SDK: the local-first store and its synchronisation

    A shallow embedding of [src/index.ts]: the [LocalStoreManager] class
    (product CRUD, manifest generation, application of sync results,
    persistence) and the part of [SovereignClient] that pushes the store to
    the marketplace.

    Conventions of the embedding.
    - A TypeScript optional property [f?: T] is an [option T]; [None] stands
      for an absent or [undefined] property (JSON.stringify drops both).
    - A JS [number] that the code only stores and counts (price, byte size,
      number of synced products) is a [Z].
    - Reads of the environment ([new Date()], [Date.now()], [Math.random()],
      the outcome of [fetch], whether the disk accepts a write) are explicit
      arguments of the function that performs them.
    - A method that mutates [this.store] is a function from the store before
      to the store after (and the returned value, when there is one). *)

From Stdlib Require Import ZArith String Ascii List Bool.
From stdpp Require Import base option list strings gmap.

Local Open Scope string_scope.
Local Open Scope Z_scope.

(** ** JavaScript values *)

(** JSON values: what [JSON.parse] returns and [JSON.stringify] walks. *)
#[local] Unset Elimination Schemes.
Inductive json : Type :=
  | JNull
  | JBool (b : bool)
  | JNum (z : Z)
  | JStr (s : string)
  | JArr (items : list json)
  | JObj (members : list (string * json)).
#[local] Set Elimination Schemes.

(** Truthiness of an optional string, as tested by [x ? a : b], [!x] and
    [x || y]: [undefined] and the empty string are falsy. *)
Definition truthy (x : option string) : bool :=
  match x with
  | Some s => negb (String.eqb s EmptyString)
  | None => false
  end.

(** [x || d] for an optional string [x] and a string [d]. *)
Definition or_else (x : option string) (d : string) : string :=
  match x with
  | Some s => if String.eqb s EmptyString then d else s
  | None => d
  end.

(** ** Types of [index.ts] *)

Inductive DeliveryType : Type := Download | Repo | Api | Manual.

Inductive Status : Type := Draft | Ready | Synced | Modified.

Inductive Direction : Type := Push | Pull.

Inductive Action : Type := Create | Update | Delete | Unchanged.

#[global] Instance DeliveryType_eq_dec : EqDecision DeliveryType.
Proof. solve_decision. Defined.
#[global] Instance Status_eq_dec : EqDecision Status.
Proof. solve_decision. Defined.
#[global] Instance Direction_eq_dec : EqDecision Direction.
Proof. solve_decision. Defined.
#[global] Instance Action_eq_dec : EqDecision Action.
Proof. solve_decision. Defined.

(** [interface StoreProfile] *)
Record StoreProfile : Type := {
  profile_name : option string;
  tagline : option string;
  profile_description : option string;
  logo_url : option string;
  banner_url : option string;
  social_links : option (list (string * string))
}.

(** [interface LocalProduct] *)
Record LocalProduct : Type := {
  local_id : string;
  remote_id : option string;
  name : string;
  description : string;
  category_id : string;
  price : Z;
  delivery_type : DeliveryType;
  delivery_payload : option json;
  content_hash : option string;
  file_size_bytes : option Z;
  status : Status;
  created_at : string;
  updated_at : string;
  synced_at : option string
}.

(** [Omit<LocalProduct, 'local_id' | 'status' | 'created_at' | 'updated_at'>],
    the argument of [createProduct]. *)
Record NewProduct : Type := {
  new_remote_id : option string;
  new_name : string;
  new_description : string;
  new_category_id : string;
  new_price : Z;
  new_delivery_type : DeliveryType;
  new_delivery_payload : option json;
  new_content_hash : option string;
  new_file_size_bytes : option Z;
  new_synced_at : option string
}.

(** [Partial<LocalProduct>], the argument of [updateProduct]. The outer
    [option] says whether the key is present in the object. For a property
    that is optional in [LocalProduct] a present key may carry [undefined],
    hence the inner [option]; a required property, when present, carries a
    value of its type. *)
Record ProductUpdates : Type := {
  upd_local_id : option string;
  upd_remote_id : option (option string);
  upd_name : option string;
  upd_description : option string;
  upd_category_id : option string;
  upd_price : option Z;
  upd_delivery_type : option DeliveryType;
  upd_delivery_payload : option (option json);
  upd_content_hash : option (option string);
  upd_file_size_bytes : option (option Z);
  upd_status : option Status;
  upd_created_at : option string;
  upd_updated_at : option string;
  upd_synced_at : option (option string)
}.

(** The object literal [{}] as a [Partial<LocalProduct>]. *)
Definition no_updates : ProductUpdates :=
  {| upd_local_id := None; upd_remote_id := None; upd_name := None;
     upd_description := None; upd_category_id := None; upd_price := None;
     upd_delivery_type := None; upd_delivery_payload := None;
     upd_content_hash := None; upd_file_size_bytes := None;
     upd_status := None; upd_created_at := None; upd_updated_at := None;
     upd_synced_at := None |}.

(** An element of [LocalStore.sync_history]. *)
Record SyncEntry : Type := {
  entry_id : string;
  direction : Direction;
  entry_timestamp : string;
  products_synced : Z
}.

(** [interface LocalStore] *)
Record LocalStore : Type := {
  version : string;
  profile : StoreProfile;
  products : list LocalProduct;
  sync_history : list SyncEntry;
  last_sync : option string
}.

(** The [data] snapshot of a manifest entry. *)
Record ProductData : Type := {
  data_name : string;
  data_description : string;
  data_category_id : string;
  data_price : Z;
  data_delivery_type : DeliveryType;
  data_delivery_payload : option json;
  data_content_hash : option string;
  data_file_size_bytes : option Z
}.

(** An element of [SyncManifest.products]. *)
Record ManifestEntry : Type := {
  entry_local_id : string;
  entry_remote_id : option string;
  action : Action;
  entry_data : option ProductData;
  local_updated_at : string
}.

(** [interface SyncManifest] *)
Record SyncManifest : Type := {
  manifest_version : string;
  agent_id : string;
  manifest_timestamp : string;
  manifest_products : list ManifestEntry;
  store_profile : option StoreProfile;
  checksum : string
}.

(** [{ local_id: string; remote_id: string }] *)
Record IdPair : Type := {
  pair_local_id : string;
  pair_remote_id : string
}.

(** [{ local_id: string; error: string }] *)
Record SyncError : Type := {
  error_local_id : string;
  error_text : string
}.

(** [SyncResult.results] *)
Record SyncResults : Type := {
  created : list IdPair;
  updated : list IdPair;
  deleted : list string;
  errors : list SyncError
}.

(** [interface SyncResult] *)
Record SyncResult : Type := {
  sync_id : string;
  result_timestamp : string;
  results : SyncResults
}.

(** ** Field assignment *)

Definition with_products (ps : list LocalProduct) (s : LocalStore) : LocalStore :=
  {| version := version s; profile := profile s; products := ps;
     sync_history := sync_history s; last_sync := last_sync s |}.

(** [product.remote_id = r; product.status = 'synced'; product.synced_at = t] *)
Definition assign_created (r t : string) (p : LocalProduct) : LocalProduct :=
  {| local_id := local_id p; remote_id := Some r; name := name p;
     description := description p; category_id := category_id p;
     price := price p; delivery_type := delivery_type p;
     delivery_payload := delivery_payload p; content_hash := content_hash p;
     file_size_bytes := file_size_bytes p; status := Synced;
     created_at := created_at p; updated_at := updated_at p;
     synced_at := Some t |}.

(** [product.status = 'synced'; product.synced_at = t] *)
Definition assign_updated (t : string) (p : LocalProduct) : LocalProduct :=
  {| local_id := local_id p; remote_id := remote_id p; name := name p;
     description := description p; category_id := category_id p;
     price := price p; delivery_type := delivery_type p;
     delivery_payload := delivery_payload p; content_hash := content_hash p;
     file_size_bytes := file_size_bytes p; status := Synced;
     created_at := created_at p; updated_at := updated_at p;
     synced_at := Some t |}.

(** ** [class LocalStoreManager]: the in-memory store *)

Definition getDefaultStore : LocalStore :=
  {| version := "1.0.0";
     profile := {| profile_name := None; tagline := None;
                   profile_description := None; logo_url := None;
                   banner_url := None; social_links := None |};
     products := [];
     sync_history := [];
     last_sync := None |}.

(** [this.store.products.findIndex(p => p.local_id === localId)] together
    with the element found; [None] is the index [-1]. *)
Definition findIndex (localId : string) (ps : list LocalProduct)
  : option (nat * LocalProduct) :=
  list_find (λ p, local_id p = localId) ps.

Definition getProducts (s : LocalStore) : list LocalProduct := products s.

Definition getProduct (localId : string) (s : LocalStore) : option LocalProduct :=
  snd <$> findIndex localId (products s).

(** ['local_' + Date.now().toString(36) + Math.random().toString(36).substr(2, 9)];
    the two base-36 renderings are read from the environment. *)
Definition generateId (clock36 random36 : string) : string :=
  "local_" ++ clock36 ++ String.substring 2 9 random36.

(** [createProduct(product)]. [created] and [updated] are the two successive
    readings of [new Date().toISOString()]. *)
Definition createProduct (product : NewProduct) (clock36 random36 : string)
    (created updated : string) (s : LocalStore) : LocalStore * LocalProduct :=
  let newProduct :=
    {| local_id := generateId clock36 random36;
       remote_id := new_remote_id product;
       name := new_name product;
       description := new_description product;
       category_id := new_category_id product;
       price := new_price product;
       delivery_type := new_delivery_type product;
       delivery_payload := new_delivery_payload product;
       content_hash := new_content_hash product;
       file_size_bytes := new_file_size_bytes product;
       status := Draft;
       created_at := created;
       updated_at := updated;
       synced_at := new_synced_at product |} in
  (with_products (products s ++ [newProduct]) s, newProduct).

(** The object literal built by [updateProduct]:
    [{...existing, ...updates, local_id: existing.local_id,
      updated_at: now, status: existing.remote_id ? 'modified' : existing.status}]. *)
Definition merge_updates (existing : LocalProduct) (updates : ProductUpdates)
    (now : string) : LocalProduct :=
  {| local_id := local_id existing;
     remote_id := default (remote_id existing) (upd_remote_id updates);
     name := default (name existing) (upd_name updates);
     description := default (description existing) (upd_description updates);
     category_id := default (category_id existing) (upd_category_id updates);
     price := default (price existing) (upd_price updates);
     delivery_type := default (delivery_type existing) (upd_delivery_type updates);
     delivery_payload :=
       default (delivery_payload existing) (upd_delivery_payload updates);
     content_hash := default (content_hash existing) (upd_content_hash updates);
     file_size_bytes :=
       default (file_size_bytes existing) (upd_file_size_bytes updates);
     status := if truthy (remote_id existing) then Modified else status existing;
     created_at := default (created_at existing) (upd_created_at updates);
     updated_at := now;
     synced_at := default (synced_at existing) (upd_synced_at updates) |}.

(** [updateProduct(localId, updates)]; [None] is the returned [null]. *)
Definition updateProduct (localId : string) (updates : ProductUpdates)
    (now : string) (s : LocalStore) : option (LocalStore * LocalProduct) :=
  match findIndex localId (products s) with
  | None => None
  | Some (index, existing) =>
      let updated := merge_updates existing updates now in
      Some (with_products (<[index := updated]> (products s)) s, updated)
  end.

(** [deleteProduct(localId)]: [splice(index, 1)] on the product array. *)
Definition deleteProduct (localId : string) (s : LocalStore) : LocalStore * bool :=
  match findIndex localId (products s) with
  | None => (s, false)
  | Some (index, _) => (with_products (delete index (products s)) s, true)
  end.

(** [markReady(localId)] is [updateProduct(localId, { status: 'ready' })]. *)
Definition markReady (localId : string) (now : string) (s : LocalStore)
  : option (LocalStore * LocalProduct) :=
  updateProduct localId
    {| upd_local_id := None; upd_remote_id := None; upd_name := None;
       upd_description := None; upd_category_id := None; upd_price := None;
       upd_delivery_type := None; upd_delivery_payload := None;
       upd_content_hash := None; upd_file_size_bytes := None;
       upd_status := Some Ready; upd_created_at := None;
       upd_updated_at := None; upd_synced_at := None |}
    now s.

Definition pending (p : LocalProduct) : Prop :=
  status p = Ready ∨ status p = Modified.

#[global] Instance pending_dec p : Decision (pending p).
Proof. unfold pending. apply _. Defined.

(** [getUnsyncedProducts()] *)
Definition getUnsyncedProducts (s : LocalStore) : list LocalProduct :=
  filter pending (products s).

(** [product = products.find(p => p.local_id === id); if (product) { ... }]
    where the body assigns fields of the product found. *)
Definition assign_first (localId : string) (f : LocalProduct → LocalProduct)
    (ps : list LocalProduct) : list LocalProduct :=
  match findIndex localId ps with
  | Some (index, product) => <[index := f product]> ps
  | None => ps
  end.

(** The two [for ... of] loops of [applySyncResults]. *)
Definition apply_created (t : string) (cs : list IdPair) (ps : list LocalProduct)
  : list LocalProduct :=
  foldl (λ acc c, assign_first (pair_local_id c) (assign_created (pair_remote_id c) t) acc)
        ps cs.

Definition apply_updated (t : string) (us : list IdPair) (ps : list LocalProduct)
  : list LocalProduct :=
  foldl (λ acc u, assign_first (pair_local_id u) (assign_updated t) acc) ps us.

(** [applySyncResults(results)] *)
Definition applySyncResults (r : SyncResult) (s : LocalStore) : LocalStore :=
  let ps := apply_updated (result_timestamp r) (updated (results r))
              (apply_created (result_timestamp r) (created (results r)) (products s)) in
  {| version := version s;
     profile := profile s;
     products := ps;
     sync_history :=
       sync_history s ++
       [ {| entry_id := sync_id r;
            direction := Push;
            entry_timestamp := result_timestamp r;
            products_synced :=
              Z.of_nat (length (created (results r)))
              + Z.of_nat (length (updated (results r))) |} ];
     last_sync := Some (result_timestamp r) |}.

(** ** The persisted document

    [save] writes [JSON.stringify(this.store, null, 2)] and [load] reads it
    back with [JSON.parse]. The text layer belongs to the JavaScript runtime;
    a file is modelled by the JSON value its text denotes, which is what
    [JSON.parse] returns for the text [JSON.stringify] printed. *)

(** A property whose value is [undefined] is not printed. *)
Definition opt_member {A} (key : string) (enc : A → json) (x : option A)
  : list (string * json) :=
  match x with
  | Some a => [(key, enc a)]
  | None => []
  end.

Definition delivery_type_to_json (d : DeliveryType) : json :=
  JStr match d with
       | Download => "download" | Repo => "repo" | Api => "api" | Manual => "manual"
       end.

Definition status_to_json (st : Status) : json :=
  JStr match st with
       | Draft => "draft" | Ready => "ready" | Synced => "synced"
       | Modified => "modified"
       end.

Definition direction_to_json (d : Direction) : json :=
  JStr match d with Push => "push" | Pull => "pull" end.

Definition action_to_json (a : Action) : json :=
  JStr match a with
       | Create => "create" | Update => "update" | Delete => "delete"
       | Unchanged => "unchanged"
       end.

Definition links_to_json (l : list (string * string)) : json :=
  JObj (prod_map id JStr <$> l).

Definition profile_to_json (p : StoreProfile) : json :=
  JObj (opt_member "name" JStr (profile_name p)
        ++ opt_member "tagline" JStr (tagline p)
        ++ opt_member "description" JStr (profile_description p)
        ++ opt_member "logo_url" JStr (logo_url p)
        ++ opt_member "banner_url" JStr (banner_url p)
        ++ opt_member "social_links" links_to_json (social_links p)).

Definition product_to_json (p : LocalProduct) : json :=
  JObj ([("local_id", JStr (local_id p))]
        ++ opt_member "remote_id" JStr (remote_id p)
        ++ [("name", JStr (name p));
            ("description", JStr (description p));
            ("category_id", JStr (category_id p));
            ("price", JNum (price p));
            ("delivery_type", delivery_type_to_json (delivery_type p))]
        ++ opt_member "delivery_payload" id (delivery_payload p)
        ++ opt_member "content_hash" JStr (content_hash p)
        ++ opt_member "file_size_bytes" JNum (file_size_bytes p)
        ++ [("status", status_to_json (status p));
            ("created_at", JStr (created_at p));
            ("updated_at", JStr (updated_at p))]
        ++ opt_member "synced_at" JStr (synced_at p)).

Definition sync_entry_to_json (e : SyncEntry) : json :=
  JObj [("id", JStr (entry_id e));
        ("direction", direction_to_json (direction e));
        ("timestamp", JStr (entry_timestamp e));
        ("products_synced", JNum (products_synced e))].

Definition store_to_json (s : LocalStore) : json :=
  JObj ([("version", JStr (version s));
         ("profile", profile_to_json (profile s));
         ("products", JArr (product_to_json <$> products s));
         ("sync_history", JArr (sync_entry_to_json <$> sync_history s))]
        ++ opt_member "last_sync" JStr (last_sync s)).

(** Reading a parsed document as a [LocalStore]. [obj.key] on a parsed
    object: the last member with that key, as [JSON.parse] keeps it. *)
Fixpoint member (key : string) (ms : list (string * json)) : option json :=
  match ms with
  | [] => None
  | (k, v) :: rest =>
      match member key rest with
      | Some w => Some w
      | None => if String.eqb k key then Some v else None
      end
  end.

Definition as_object (j : json) : option (list (string * json)) :=
  match j with JObj ms => Some ms | _ => None end.

Definition as_array (j : json) : option (list json) :=
  match j with JArr l => Some l | _ => None end.

Definition as_string (j : json) : option string :=
  match j with JStr s => Some s | _ => None end.

Definition as_number (j : json) : option Z :=
  match j with JNum z => Some z | _ => None end.

(** A required property. *)
Definition required_member {A} (dec : json → option A) (key : string)
    (ms : list (string * json)) : option A :=
  member key ms ≫= dec.

(** An optional property: absent, or present with a value of its type. *)
Definition optional_member {A} (dec : json → option A) (key : string)
    (ms : list (string * json)) : option (option A) :=
  match member key ms with
  | None => Some None
  | Some j => Some <$> dec j
  end.

Definition delivery_type_of_json (j : json) : option DeliveryType :=
  s ← as_string j;
  if String.eqb s "download" then Some Download
  else if String.eqb s "repo" then Some Repo
  else if String.eqb s "api" then Some Api
  else if String.eqb s "manual" then Some Manual
  else None.

Definition status_of_json (j : json) : option Status :=
  s ← as_string j;
  if String.eqb s "draft" then Some Draft
  else if String.eqb s "ready" then Some Ready
  else if String.eqb s "synced" then Some Synced
  else if String.eqb s "modified" then Some Modified
  else None.

Definition direction_of_json (j : json) : option Direction :=
  s ← as_string j;
  if String.eqb s "push" then Some Push
  else if String.eqb s "pull" then Some Pull
  else None.

Definition links_of_json (j : json) : option (list (string * string)) :=
  ms ← as_object j;
  mapM (λ kv, v ← as_string kv.2; Some (kv.1, v)) ms.

Definition profile_of_json (j : json) : option StoreProfile :=
  ms ← as_object j;
  n ← optional_member as_string "name" ms;
  t ← optional_member as_string "tagline" ms;
  d ← optional_member as_string "description" ms;
  l ← optional_member as_string "logo_url" ms;
  b ← optional_member as_string "banner_url" ms;
  sl ← optional_member links_of_json "social_links" ms;
  Some {| profile_name := n; tagline := t; profile_description := d;
          logo_url := l; banner_url := b; social_links := sl |}.

Definition product_of_json (j : json) : option LocalProduct :=
  ms ← as_object j;
  lid ← required_member as_string "local_id" ms;
  rid ← optional_member as_string "remote_id" ms;
  n ← required_member as_string "name" ms;
  d ← required_member as_string "description" ms;
  c ← required_member as_string "category_id" ms;
  pr ← required_member as_number "price" ms;
  dt ← required_member delivery_type_of_json "delivery_type" ms;
  dp ← optional_member Some "delivery_payload" ms;
  ch ← optional_member as_string "content_hash" ms;
  fsb ← optional_member as_number "file_size_bytes" ms;
  st ← required_member status_of_json "status" ms;
  ca ← required_member as_string "created_at" ms;
  ua ← required_member as_string "updated_at" ms;
  sa ← optional_member as_string "synced_at" ms;
  Some {| local_id := lid; remote_id := rid; name := n; description := d;
          category_id := c; price := pr; delivery_type := dt;
          delivery_payload := dp; content_hash := ch; file_size_bytes := fsb;
          status := st; created_at := ca; updated_at := ua; synced_at := sa |}.

Definition sync_entry_of_json (j : json) : option SyncEntry :=
  ms ← as_object j;
  i ← required_member as_string "id" ms;
  d ← required_member direction_of_json "direction" ms;
  t ← required_member as_string "timestamp" ms;
  n ← required_member as_number "products_synced" ms;
  Some {| entry_id := i; direction := d; entry_timestamp := t;
          products_synced := n |}.

Definition store_of_json (j : json) : option LocalStore :=
  ms ← as_object j;
  v ← required_member as_string "version" ms;
  p ← required_member profile_of_json "profile" ms;
  ps ← required_member (λ a, as_array a ≫= mapM product_of_json) "products" ms;
  h ← required_member (λ a, as_array a ≫= mapM sync_entry_of_json) "sync_history" ms;
  ls ← optional_member as_string "last_sync" ms;
  Some {| version := v; profile := p; products := ps; sync_history := h;
          last_sync := ls |}.

(** What a path of the file system holds: a JSON document, or something
    that [readFileSync] or [JSON.parse] throws on. *)
Inductive File : Type :=
  | Document (j : json)
  | Unreadable (raw : string).

(** The manager object: [store], [storePath] and the cached [fs] module
    ([false] is [null]). *)
Record LocalStoreManager : Type := {
  store : LocalStore;
  storePath : string;
  fs : bool
}.

(** [constructor(storePath?)] *)
Definition new_LocalStoreManager (path : option string) : LocalStoreManager :=
  {| store := getDefaultStore;
     storePath := or_else path "./sovereign-store.json";
     fs := false |}.

Definition with_store (s : LocalStore) (m : LocalStoreManager) : LocalStoreManager :=
  {| store := s; storePath := storePath m; fs := fs m |}.

(** [load()]. [fs_module] tells whether [import('fs')] resolves. The result
    is [None] when the file parses to a JSON value that is not a
    [LocalStore]: the code assigns it to [this.store] unchecked, and the
    typed store of this model has no value for it. *)
Definition load (fs_module : bool) (disk : gmap string File)
    (m : LocalStoreManager) : option LocalStoreManager :=
  if fs_module then
    match disk !! storePath m with
    | Some (Document j) =>
        s ← store_of_json j;
        Some {| store := s; storePath := storePath m; fs := true |}
    | Some (Unreadable _) =>
        Some {| store := getDefaultStore; storePath := storePath m; fs := true |}
    | None => Some {| store := store m; storePath := storePath m; fs := true |}
    end
  else Some (with_store getDefaultStore m).

(** [save()]. [writable] tells whether [writeFileSync] succeeds; a failure
    is caught and only reported on the console. *)
Definition save (fs_module writable : bool) (disk : gmap string File)
    (m : LocalStoreManager) : LocalStoreManager * gmap string File :=
  let written :=
    if writable then <[storePath m := Document (store_to_json (store m))]> disk
    else disk in
  if fs m then (m, written)
  else if fs_module then
    ({| store := store m; storePath := storePath m; fs := true |}, written)
  else (m, disk).

(** ** The sync manifest *)

Definition data_to_json (d : ProductData) : json :=
  JObj ([("name", JStr (data_name d));
         ("description", JStr (data_description d));
         ("category_id", JStr (data_category_id d));
         ("price", JNum (data_price d));
         ("delivery_type", delivery_type_to_json (data_delivery_type d))]
        ++ opt_member "delivery_payload" id (data_delivery_payload d)
        ++ opt_member "content_hash" JStr (data_content_hash d)
        ++ opt_member "file_size_bytes" JNum (data_file_size_bytes d)).

Definition manifest_entry_to_json (e : ManifestEntry) : json :=
  JObj ([("local_id", JStr (entry_local_id e))]
        ++ opt_member "remote_id" JStr (entry_remote_id e)
        ++ [("action", action_to_json (action e))]
        ++ opt_member "data" data_to_json (entry_data e)
        ++ [("local_updated_at", JStr (local_updated_at e))]).

(** [ToInt32]: the value of a bitwise operator, a signed 32-bit integer. *)
Definition to_int32 (z : Z) : Z := (z + 2 ^ 31) mod 2 ^ 32 - 2 ^ 31.

(** One turn of the checksum loop:
    [hash = ((hash << 5) - hash) + char; hash = hash & hash]. *)
Definition checksum_step (hash char : Z) : Z :=
  to_int32 (to_int32 (Z.shiftl (to_int32 hash) 5) - hash + char).

Definition hex_digit (d : Z) : ascii :=
  match String.get (Z.to_nat d) "0123456789abcdef" with
  | Some c => c
  | None => "0"%char
  end.

Fixpoint hex_digits (fuel : nat) (n : Z) (acc : string) : string :=
  match fuel with
  | O => acc
  | S fuel' =>
      let acc' := String (hex_digit (n mod 16)) acc in
      if n / 16 =? 0 then acc' else hex_digits fuel' (n / 16) acc'
  end.

(** [n.toString(16)] for a non-negative integer [n]. *)
Definition toString16 (n : Z) : string :=
  hex_digits (S (Z.to_nat (Z.log2 n))) n EmptyString.

(** The object literal [{ name: p.name, ..., file_size_bytes: p.file_size_bytes }]. *)
Definition snapshot (p : LocalProduct) : ProductData :=
  {| data_name := name p;
     data_description := description p;
     data_category_id := category_id p;
     data_price := price p;
     data_delivery_type := delivery_type p;
     data_delivery_payload := delivery_payload p;
     data_content_hash := content_hash p;
     data_file_size_bytes := file_size_bytes p |}.

(** [p => { ... }] of [generateSyncManifest]: the entry of one product. *)
Definition manifest_entry (p : LocalProduct) : ManifestEntry :=
  let action :=
    if negb (truthy (remote_id p)) && bool_decide (status p = Ready) then Create
    else if truthy (remote_id p) && bool_decide (status p = Modified) then Update
    else Unchanged in
  {| entry_local_id := local_id p;
     entry_remote_id := remote_id p;
     action := action;
     entry_data := if bool_decide (action ≠ Unchanged) then Some (snapshot p) else None;
     local_updated_at := updated_at p |}.

Section Runtime.

(** The text of [JSON.stringify(v)], as the sequence of its UTF-16 code
    units ([str.charCodeAt(i)] for [i] from [0]). *)
Variable JSON_stringify : json → list Z.

(** [generateChecksum(data)] *)
Definition generateChecksum (data : json) : string :=
  toString16 (Z.abs (foldl checksum_step 0 (JSON_stringify data))).

(** [generateSyncManifest(agentId)]; [now] is [new Date().toISOString()]. *)
Definition generateSyncManifest (agentId : string) (now : string)
    (s : LocalStore) : SyncManifest :=
  let entries := manifest_entry <$> filter (λ p, status p ≠ Draft) (products s) in
  {| manifest_version := "1.0.0";
     agent_id := agentId;
     manifest_timestamp := now;
     manifest_products := entries;
     store_profile := Some (profile s);
     checksum := generateChecksum (JArr (manifest_entry_to_json <$> entries)) |}.

End Runtime.

(** ** [class SovereignClient]: requests and push *)

Definition manifest_to_json (m : SyncManifest) : json :=
  JObj ([("version", JStr (manifest_version m));
         ("agent_id", JStr (agent_id m));
         ("timestamp", JStr (manifest_timestamp m));
         ("products", JArr (manifest_entry_to_json <$> manifest_products m))]
        ++ opt_member "store_profile" profile_to_json (store_profile m)
        ++ [("checksum", JStr (checksum m))]).

(** [interface Agent]; [Agent_id] is its property [id]. *)
Record Agent : Type := {
  Agent_id : string;
  wallet_address : string;
  display_name : option string;
  trade : option string;
  level : Z;
  xp : string;
  credit_balance : string
}.

(** [ApiResponse.error] *)
Record ApiError : Type := {
  code : string;
  message : string;
  required : option Z;
  endpoint : option string
}.

(** The value of [parseInt]. *)
Inductive Parsed : Type := NaN | Int (z : Z).

(** [ApiResponse.headers] *)
Record BillingHeaders : Type := {
  creditsCharged : option Parsed;
  creditsRemaining : option Parsed
}.

(** [interface ApiResponse<T>]. [success] is the truthiness of the property
    and [data] is [None] for [null] and [undefined]. *)
Record ApiResponse (T : Type) : Type := {
  success : bool;
  data : option T;
  error : option ApiError;
  headers : option BillingHeaders
}.
Arguments success {T} _.
Arguments data {T} _.
Arguments error {T} _.
Arguments headers {T} _.

Inductive Method : Type := GET | POST | PUT | PATCH | DELETE.

(** What [fetch] is called with. *)
Record HttpRequest : Type := {
  url : string;
  method : Method;
  request_headers : list (string * string);
  body : option json
}.

(** What happens inside the [try] of [request]: [fetch] or
    [response.json()] throws (with the message of the [Error], if it is
    one), or the body parses to [json] and the two billing headers read as
    given. *)
Inductive FetchOutcome (T : Type) : Type :=
  | Thrown (error_message : option string)
  | Responded (json : ApiResponse T) (xCreditsCharged xCreditsRemaining : option string).
Arguments Thrown {T} _.
Arguments Responded {T} _ _ _.

(** [interface SovereignConfig] *)
Record SovereignConfig : Type := {
  config_baseUrl : option string;
  config_authToken : option string;
  localStorePath : option string
}.

Record SovereignClient : Type := {
  baseUrl : string;
  authToken : option string;
  localStore : LocalStoreManager
}.

(** [constructor(config = {})] *)
Definition new_SovereignClient (config : SovereignConfig) : SovereignClient :=
  {| baseUrl := or_else (config_baseUrl config) "http://localhost:3100/api/v1";
     authToken :=
       if truthy (config_authToken config) then config_authToken config else None;
     localStore := new_LocalStoreManager (localStorePath config) |}.

(** The calls [push] makes on [this.localStore], in order. *)
Inductive ManagerCall : Type :=
  | CallGenerateSyncManifest (agentId : string)
  | CallApplySyncResults (r : SyncResult)
  | CallSave.

(** The world around one [push]: the two endpoints it may reach, the clock,
    and the file system's behaviour. *)
Record Host : Type := {
  fetch_agent : HttpRequest → FetchOutcome Agent;
  fetch_sync : HttpRequest → FetchOutcome SyncResult;
  clock : string;
  fs_module : bool;
  writable : bool
}.

Definition not_authenticated : ApiResponse SyncResult :=
  {| success := false;
     data := None;
     error := Some {| code := "NOT_AUTHENTICATED";
                      message := "Must be authenticated to push";
                      required := None; endpoint := None |};
     headers := None |}.

Section Client.

Variable JSON_stringify : json → list Z.
Variable parseInt : string → Parsed.

(** The argument of [fetch] built by [request(method, path, body)]. *)
Definition http_request (c : SovereignClient) (m : Method) (path : string)
    (payload : option json) : HttpRequest :=
  {| url := baseUrl c ++ path;
     method := m;
     request_headers :=
       ("Content-Type", "application/json")
       :: (if truthy (authToken c)
           then [("Authorization", "Bearer " ++ default EmptyString (authToken c))]
           else []);
     body := payload |}.

(** [request<T>(method, path, body)] once [fetch] has settled. *)
Definition request {T} (outcome : FetchOutcome T) : ApiResponse T :=
  match outcome with
  | Responded json charged remaining =>
      {| success := success json;
         data := data json;
         error := error json;
         headers :=
           Some {| creditsCharged :=
                     if truthy charged then parseInt <$> charged else None;
                   creditsRemaining :=
                     if truthy remaining then parseInt <$> remaining else None |} |}
  | Thrown msg =>
      {| success := false;
         data := None;
         error := Some {| code := "NETWORK_ERROR";
                          message := default "Unknown error" msg;
                          required := None; endpoint := None |};
         headers := None |}
  end.

(** [getAgentInfo()] is [request('GET', '/auth/me')]. *)
Definition getAgentInfo (h : Host) (c : SovereignClient) : ApiResponse Agent :=
  request (fetch_agent h (http_request c GET "/auth/me" None)).

(** [push(agentId?)]: the response returned, the client and the disk
    afterwards, and the calls made on the local store. *)
Definition push (h : Host) (agentId : option string) (c : SovereignClient)
    (disk : gmap string File)
  : ApiResponse SyncResult * SovereignClient * gmap string File * list ManagerCall :=
  let resolved :=
    if truthy agentId then agentId
    else Agent_id <$> data (getAgentInfo h c) in
  if negb (truthy resolved) then (not_authenticated, c, disk, [])
  else
    let agentId' := default EmptyString resolved in
    let manifest :=
      generateSyncManifest JSON_stringify agentId' (clock h) (store (localStore c)) in
    let response : ApiResponse SyncResult :=
      request (fetch_sync h
                 (http_request c POST "/sync/push"
                    (Some (JObj [("manifest", manifest_to_json manifest)])))) in
    match success response, data response with
    | true, Some r =>
        let applied := with_store (applySyncResults r (store (localStore c))) (localStore c) in
        let '(saved, disk') := save (fs_module h) (writable h) disk applied in
        (response,
         {| baseUrl := baseUrl c; authToken := authToken c; localStore := saved |},
         disk',
         [CallGenerateSyncManifest agentId'; CallApplySyncResults r; CallSave])
    | _, _ => (response, c, disk, [CallGenerateSyncManifest agentId'])
    end.

End Client.

(** ** Sequences of store operations *)

(** One call on the manager, with the environment readings it consumes. *)
Inductive Op : Type :=
  | OpCreate (product : NewProduct) (clock36 random36 created updated : string)
  | OpUpdate (localId : string) (updates : ProductUpdates) (now : string)
  | OpMarkReady (localId : string) (now : string)
  | OpDelete (localId : string)
  | OpApply (r : SyncResult).

(** The store after one call; a call that reports not-found changes nothing. *)
Definition step (s : LocalStore) (o : Op) : LocalStore :=
  match o with
  | OpCreate product clock36 random36 created updated =>
      (createProduct product clock36 random36 created updated s).1
  | OpUpdate localId updates now =>
      from_option fst s (updateProduct localId updates now s)
  | OpMarkReady localId now => from_option fst s (markReady localId now s)
  | OpDelete localId => (deleteProduct localId s).1
  | OpApply r => applySyncResults r s
  end.

Definition run (ops : list Op) (s : LocalStore) : LocalStore := foldl step s ops.

(** The updated loop only meets products that have a remote id (the test
    [product.remote_id]) at the moment their pair is processed. *)
Fixpoint updated_pairs_synced (t : string) (us : list IdPair)
    (ps : list LocalProduct) : bool :=
  match us with
  | [] => true
  | u :: rest =>
      match findIndex (pair_local_id u) ps with
      | Some (_, p) => truthy (remote_id p)
      | None => true
      end
      && updated_pairs_synced t rest
           (assign_first (pair_local_id u) (assign_updated t) ps)
  end.

(** A call that leaves remote ids to the sync protocol: no [remote_id] key
    in the fields given to [createProduct] and [updateProduct], a non-empty
    remote id in every created pair, and updated pairs naming synced
    products only. *)
Definition protocol_call (s : LocalStore) (o : Op) : bool :=
  match o with
  | OpCreate product _ _ _ _ =>
      match new_remote_id product with None => true | Some _ => false end
  | OpUpdate _ updates _ =>
      match upd_remote_id updates with None => true | Some _ => false end
  | OpMarkReady _ _ => true
  | OpDelete _ => true
  | OpApply r =>
      forallb (λ c, truthy (Some (pair_remote_id c))) (created (results r))
      && updated_pairs_synced (result_timestamp r) (updated (results r))
           (apply_created (result_timestamp r) (created (results r)) (products s))
  end.

Fixpoint protocol_calls (s : LocalStore) (ops : list Op) : bool :=
  match ops with
  | [] => true
  | o :: rest => protocol_call s o && protocol_calls (step s o) rest
  end.

(** A call that cannot touch the remote id of the product [localId]: not
    its deletion, not an update of it with a [remote_id] key, not a result
    whose created list names it. *)
Definition keeps_remote_id (localId : string) (o : Op) : bool :=
  match o with
  | OpCreate _ _ _ _ _ => true
  | OpUpdate target updates _ =>
      negb (String.eqb target localId)
      || match upd_remote_id updates with None => true | Some _ => false end
  | OpMarkReady _ _ => true
  | OpDelete target => negb (String.eqb target localId)
  | OpApply r =>
      forallb (λ c, negb (String.eqb (pair_local_id c) localId))
              (created (results r))
  end.

(** Every id [generateId] produces differs from the ids then in the store. *)
Fixpoint fresh_ids (s : LocalStore) (ops : list Op) : bool :=
  match ops with
  | [] => true
  | o :: rest =>
      match o with
      | OpCreate _ clock36 random36 _ _ =>
          bool_decide (generateId clock36 random36 ∉ local_id <$> products s)
      | _ => true
      end
      && fresh_ids (step s o) rest
  end.

(** ** Further methods of [LocalStoreManager] *)

(** The value of [getSyncStats()]. *)
Record SyncStats : Type := {
  stats_total : Z;
  stats_synced : Z;
  stats_pending : Z;
  stats_drafts : Z
}.

(** [getSyncStats()] *)
Definition getSyncStats (s : LocalStore) : SyncStats :=
  {| stats_total := Z.of_nat (length (products s));
     stats_synced :=
       Z.of_nat (length (filter (λ p, status p = Synced) (products s)));
     stats_pending :=
       Z.of_nat (length (filter (λ p, status p = Ready ∨ status p = Modified)
                                (products s)));
     stats_drafts :=
       Z.of_nat (length (filter (λ p, status p = Draft) (products s))) |}.

(** [Partial<StoreProfile>], the argument of [updateProfile]: for each key,
    whether it is present, and then its value or [undefined]. *)
Record ProfileUpdates : Type := {
  set_name : option (option string);
  set_tagline : option (option string);
  set_description : option (option string);
  set_logo_url : option (option string);
  set_banner_url : option (option string);
  set_social_links : option (option (list (string * string)))
}.

(** [{ ...profile, ...updates }] *)
Definition merge_profile (p : StoreProfile) (u : ProfileUpdates) : StoreProfile :=
  {| profile_name := default (profile_name p) (set_name u);
     tagline := default (tagline p) (set_tagline u);
     profile_description := default (profile_description p) (set_description u);
     logo_url := default (logo_url p) (set_logo_url u);
     banner_url := default (banner_url p) (set_banner_url u);
     social_links := default (social_links p) (set_social_links u) |}.


(** [updateProfile(profile)] *)
Definition updateProfile (u : ProfileUpdates) (s : LocalStore) : LocalStore :=
  {| version := version s;
     profile := merge_profile (profile s) u;
     products := products s;
     sync_history := sync_history s;
     last_sync := last_sync s |}.

(** ** [authenticate] *)

(** The data of the [/auth/challenge] response. *)
Record Challenge : Type := {
  challenge : string;
  challenge_message : string
}.

(** The data of the [/auth/verify] response. *)
Record Session : Type := {
  token : string;
  agent : Agent;
  is_new_agent : bool
}.

(** The world around one [authenticate]: the two endpoints. *)
Record AuthHost : Type := {
  fetch_challenge : HttpRequest → FetchOutcome Challenge;
  fetch_verify : HttpRequest → FetchOutcome Session
}.

Definition with_token (t : option string) (c : SovereignClient) : SovereignClient :=
  {| baseUrl := baseUrl c; authToken := t; localStore := localStore c |}.

Section Authenticate.

Variable parseInt : string → Parsed.

(** [authenticate(walletAddress, signMessage?)]. The signer, when given,
    maps the challenge message to a signature, or rejects ([None]); the
    result is [None] when [authenticate] itself rejects, which happens only
    when the signer does. *)
Definition authenticate (h : AuthHost) (walletAddress : string)
    (signMessage : option (string → option string)) (c : SovereignClient)
  : option (ApiResponse Session) * SovereignClient :=
  let challengeResp : ApiResponse Challenge :=
    request parseInt
      (fetch_challenge h
         (http_request c POST "/auth/challenge"
            (Some (JObj [("wallet_address", JStr walletAddress)])))) in
  match success challengeResp, data challengeResp with
  | true, Some ch =>
      let signature :=
        match signMessage with
        | Some sign => sign (challenge_message ch)
        | None =>
            Some "1234567890abcdef1234567890abcdef1234567890abcdef1234567890abcdef"
        end in
      match signature with
      | None => (None, c)
      | Some sig =>
          let verifyResp : ApiResponse Session :=
            request parseInt
              (fetch_verify h
                 (http_request c POST "/auth/verify"
                    (Some (JObj [("wallet_address", JStr walletAddress);
                                 ("challenge", JStr (challenge ch));
                                 ("signature", JStr sig)])))) in
          match success verifyResp, data verifyResp with
          | true, Some session =>
              (Some verifyResp, with_token (Some (token session)) c)
          | _, _ => (Some verifyResp, c)
          end
      end
  | _, _ =>
      (Some {| success := false; data := None; error := error challengeResp;
               headers := None |}, c)
  end.

End Authenticate.

(** ** The product check of the helper server *)

(** Truthiness of a JSON value. *)
Definition json_truthy (j : json) : bool :=
  match j with
  | JNull => false
  | JBool b => b
  | JNum z => negb (z =? 0)
  | JStr s => negb (String.eqb s EmptyString)
  | JArr _ => true
  | JObj _ => true
  end.

Definition validCategories : list string :=
  ["datasets"; "prompt-packs"; "api-access"; "mcp-tools"; "models";
   "knowledge-bases"].

(** [validCategories.join(', ')] *)
Definition join_comma (l : list string) : string :=
  match l with
  | [] => EmptyString
  | x :: rest => foldl (λ acc y, acc ++ ", " ++ y) x rest
  end.

(** [s.length]: the number of UTF-16 code units of a JS string, which the
    model holds as its UTF-8 bytes. An ASCII byte and the lead byte of a
    two- or three-byte sequence begin a character of one unit, the lead
    byte of a four-byte sequence a character of two units, and a
    continuation byte adds nothing. *)
Definition utf16_units (b : ascii) : nat :=
  if Nat.ltb (nat_of_ascii b) 128 then 1%nat
  else if Nat.ltb (nat_of_ascii b) 192 then 0%nat
  else if Nat.ltb (nat_of_ascii b) 240 then 1%nat
  else 2%nat.

Fixpoint utf16_length (s : string) : nat :=
  match s with
  | EmptyString => 0%nat
  | String b rest => (utf16_units b + utf16_length rest)%nat
  end.

(** The properties [validateProduct] reads from the product it found, as
    JavaScript values: [None] is [undefined]; for the price it also stands
    for [NaN], which compares the same way. *)
Record ProductView : Type := {
  view_name : option string;
  view_description : option string;
  view_price : option Z;
  view_delivery_type : option DeliveryType;
  view_delivery_payload : option json;
  view_category_id : option string
}.

(** The view of a record of the typed store: every required property has
    a value. *)
Definition view_of (p : LocalProduct) : ProductView :=
  {| view_name := Some (name p);
     view_description := Some (description p);
     view_price := Some (price p);
     view_delivery_type := Some (delivery_type p);
     view_delivery_payload := delivery_payload p;
     view_category_id := Some (category_id p) |}.

(** The five checks of [validateProduct], each pushing to [passed] ([inl])
    or to [issues] ([inr]). *)
Definition check_name (n : string) : string + string :=
  if Z.of_nat (utf16_length n) <? 5
  then inr "Name too short (min 5 characters)"
  else if 100 <? Z.of_nat (utf16_length n)
  then inr "Name too long (max 100 characters)"
  else inl "Name length ‚úì".

Definition check_description (d : string) : string + string :=
  if Z.of_nat (utf16_length d) <? 20
  then inr "Description too short (min 20 characters)"
  else if 2000 <? Z.of_nat (utf16_length d)
  then inr "Description too long (max 2000 characters)"
  else inl "Description length ‚úì".

(** [price < 100] and [price > 10000000] are both false for [undefined]
    and [NaN]. *)
Definition check_price (price : option Z) : string + string :=
  if from_option (λ z, z <? 100) false price
  then inr "Price too low (min 100 credits)"
  else if from_option (λ z, 10000000 <? z) false price
  then inr "Price too high (max 10,000,000 credits)"
  else inl "Price range ‚úì".

Definition check_delivery (delivery : option DeliveryType)
    (payload : option json) : string + string :=
  if bool_decide (delivery = Some Download)
     && negb (from_option json_truthy false payload)
  then inr "Download products need a delivery URL"
  else inl "Delivery configured ‚úì".

Definition check_category (category : option string) : string + string :=
  if negb (from_option (λ c, bool_decide (c ∈ validCategories)) false category)
  then inr ("Invalid category. Use: " ++ join_comma validCategories)
  else inl "Category valid ‚úì".

(** What a call of [validateProduct] comes to: the not-found message, a
    [TypeError] thrown by [.length] of an undefined name or description,
    or the report built from the [passed] and [issues] arrays. *)
Inductive Validation : Type :=
  | NotFound
  | TypeError
  | Report (passed issues : list string).

(** The body of [validateProduct] after the product was found. *)
Definition validate (v : ProductView) : Validation :=
  match view_name v, view_description v with
  | Some n, Some d =>
      let checks :=
        [check_name n; check_description d; check_price (view_price v);
         check_delivery (view_delivery_type v) (view_delivery_payload v);
         check_category (view_category_id v)] in
      Report (omap (λ r, match r with inl m => Some m | inr _ => None end) checks)
             (omap (λ r, match r with inr m => Some m | inl _ => None end) checks)
  | _, _ => TypeError
  end.

(** [validateProduct(localId)] *)
Definition validateProduct (localId : string) (s : LocalStore) : Validation :=
  match getProduct localId s with
  | None => NotFound
  | Some p => validate (view_of p)
  end.



(** The base-31 polynomial of a sequence of code units, without
    wrap-around. *)
Definition polynomial31 (codes : list Z) : Z :=
  foldl (λ h c, 31 * h + c) 0 codes.

(** * Vocabulary of the properties *)

(** What the manifest says about one product: its ids, the action chosen
    from remote id and status, and the snapshot of all eight content fields
    (name, description, category, price, delivery type and payload, content
    hash, file size) attached to actionable entries only. *)
Definition describes (p : LocalProduct) (e : ManifestEntry) : Prop :=
  entry_local_id e = local_id p
  ∧ entry_remote_id e = remote_id p
  ∧ local_updated_at e = updated_at p
  ∧ (action e = Create ↔ truthy (remote_id p) = false ∧ status p = Ready)
  ∧ (action e = Update ↔ truthy (remote_id p) = true ∧ status p = Modified)
  ∧ (action e = Unchanged
     ↔ ¬ (truthy (remote_id p) = false ∧ status p = Ready)
       ∧ ¬ (truthy (remote_id p) = true ∧ status p = Modified))
  ∧ (entry_data e
     = Some {| data_name := name p;
               data_description := description p;
               data_category_id := category_id p;
               data_price := price p;
               data_delivery_type := delivery_type p;
               data_delivery_payload := delivery_payload p;
               data_content_hash := content_hash p;
               data_file_size_bytes := file_size_bytes p |}
     ↔ action e = Create ∨ action e = Update)
  ∧ (entry_data e = None ↔ action e = Unchanged).

(** What one pair of a [SyncResult] assigns to the product it names. *)
Inductive Assignment : Type :=
  | SetCreated (remote : string)
  | SetUpdated.

Definition assign (t : string) (a : Assignment) : LocalProduct → LocalProduct :=
  match a with
  | SetCreated r => assign_created r t
  | SetUpdated => assign_updated t
  end.

(** The assignments of a result, in the order the two loops perform them. *)
Definition assignments (rs : SyncResults) : list (string * Assignment) :=
  ((λ c, (pair_local_id c, SetCreated (pair_remote_id c))) <$> created rs)
  ++ ((λ u, (pair_local_id u, SetUpdated)) <$> updated rs).

Fixpoint assign_all (t : string) (ops : list (string * Assignment))
    (ps : list LocalProduct) : list LocalProduct :=
  match ops with
  | [] => ps
  | o :: rest => assign_all t rest (assign_first o.1 (assign t o.2) ps)
  end.

(** All assignments that reach one product, applied to it in order. *)
Definition assign_each (t : string) (ops : list (string * Assignment))
    (p : LocalProduct) : LocalProduct :=
  foldl (λ q o, assign t o.2 q) p ops.

(** The remote id a product ends with: that of the last created pair
    addressed to it, or the one it had. *)
Definition last_remote (ops : list (string * Assignment)) (d : option string)
  : option string :=
  foldl (λ acc o, match o.2 with SetCreated r => Some r | SetUpdated => acc end)
        d ops.

Definition settled (t : string) (rid : option string) (p : LocalProduct)
  : LocalProduct :=
  {| local_id := local_id p; remote_id := rid; name := name p;
     description := description p; category_id := category_id p;
     price := price p; delivery_type := delivery_type p;
     delivery_payload := delivery_payload p; content_hash := content_hash p;
     file_size_bytes := file_size_bytes p; status := Synced;
     created_at := created_at p; updated_at := updated_at p;
     synced_at := Some t |}.

(** The id occurs in the created or in the updated list. *)
Definition covered (rs : SyncResults) (localId : string) : Prop :=
  localId ∈ (pair_local_id <$> created rs)
  ∨ localId ∈ (pair_local_id <$> updated rs).

(** Remote id and status agree: no remote id and ['draft'] or ['ready'], or
    a non-empty remote id and ['synced'] or ['modified']. *)
Definition lifecycle (p : LocalProduct) : Prop :=
  match remote_id p with
  | None => status p = Draft ∨ status p = Ready
  | Some r => r ≠ EmptyString ∧ (status p = Synced ∨ status p = Modified)
  end.



(** The HTTP request failed: it threw (network error), or the response
    lacks the success flag or the data. *)
Definition failed {T} (outcome : FetchOutcome T) : Prop :=
  match outcome with
  | Thrown _ => True
  | Responded json _ _ => success json = false ∨ data json = None
  end.

(** * Sample values *)

Definition sample_fields : NewProduct :=
  {| new_remote_id := None; new_name := "Prompt pack";
     new_description := "Fifty prompts"; new_category_id := "prompt-packs";
     new_price := 500; new_delivery_type := Download;
     new_delivery_payload := None; new_content_hash := None;
     new_file_size_bytes := None; new_synced_at := None |}.

(** The store after [createProduct(sample_fields)] on a new manager. *)
Definition store_A : LocalStore :=
  (createProduct sample_fields "m2x" "0.4fzyo82mvyr" "2026-01-01T00:00:00.000Z"
     "2026-01-01T00:00:00.001Z" getDefaultStore).1.

(** The product it returns, and the id generated for it. *)
Definition product_A : LocalProduct :=
  (createProduct sample_fields "m2x" "0.4fzyo82mvyr" "2026-01-01T00:00:00.000Z"
     "2026-01-01T00:00:00.001Z" getDefaultStore).2.

Definition id_A : string := "local_m2x4fzyo82mv".

(** A product record as a store file may hold it. *)
Definition sample_product (localId : string) (remote : option string)
    (st : Status) : LocalProduct :=
  {| local_id := localId; remote_id := remote; name := "Prompt pack";
     description := "Fifty prompts"; category_id := "prompt-packs";
     price := 500; delivery_type := Download; delivery_payload := None;
     content_hash := None; file_size_bytes := None; status := st;
     created_at := "2026-01-01T00:00:00.000Z";
     updated_at := "2026-01-03T00:00:00.000Z";
     synced_at := if truthy remote then Some "2026-01-02T00:00:00.000Z" else None |}.

(** Three pending products: two never synced, one edited after a sync. *)
Definition store_three : LocalStore :=
  with_products
    [sample_product "local_a" None Ready;
     sample_product "local_b" (Some "r2") Modified;
     sample_product "local_c" None Ready]
    getDefaultStore.

(** A result that creates the first, updates the second and rejects the
    third. *)
Definition result_two_of_three : SyncResult :=
  {| sync_id := "sync_1";
     result_timestamp := "2026-01-04T00:00:00.000Z";
     results :=
       {| created := [ {| pair_local_id := "local_a"; pair_remote_id := "r1" |} ];
          updated := [ {| pair_local_id := "local_b"; pair_remote_id := "r2" |} ];
          deleted := [];
          errors := [ {| error_local_id := "local_c";
                         error_text := "category not allowed" |} ] |} |}.

(** A product created with a [remote_id] among its fields. *)
Definition imported_fields : NewProduct :=
  {| new_remote_id := Some "r1"; new_name := "Prompt pack";
     new_description := "Fifty prompts"; new_category_id := "prompt-packs";
     new_price := 500; new_delivery_type := Download;
     new_delivery_payload := None; new_content_hash := None;
     new_file_size_bytes := None; new_synced_at := None |}.

(** Create, mark ready, sync, edit. *)
Definition sample_session : list Op :=
  [OpCreate sample_fields "m2x" "0.4fzyo82mvyr"
     "2026-01-01T00:00:00.000Z" "2026-01-01T00:00:00.001Z";
   OpMarkReady id_A "2026-01-02T00:00:00.000Z";
   OpApply {| sync_id := "sync_1";
              result_timestamp := "2026-01-04T00:00:00.000Z";
              results := {| created := [ {| pair_local_id := id_A;
                                            pair_remote_id := "r1" |} ];
                            updated := []; deleted := []; errors := [] |} |};
   OpUpdate id_A
     {| upd_local_id := None; upd_remote_id := None; upd_name := None;
        upd_description := None; upd_category_id := None;
        upd_price := Some 999; upd_delivery_type := None;
        upd_delivery_payload := None; upd_content_hash := None;
        upd_file_size_bytes := None; upd_status := None;
        upd_created_at := None; upd_updated_at := None;
        upd_synced_at := None |} "2026-01-05T00:00:00.000Z"].

(** The product [store_A] holds, created remotely as ["r1"]. *)
Definition store_A_synced : LocalStore :=
  applySyncResults
    {| sync_id := "sync_1"; result_timestamp := "2026-01-04T00:00:00.000Z";
       results := {| created := [ {| pair_local_id := id_A;
                                     pair_remote_id := "r1" |} ];
                     updated := []; deleted := []; errors := [] |} |}
    store_A.


(** A client whose store holds the three pending products. *)
Definition sample_client : SovereignClient :=
  {| baseUrl := "http://localhost:3100/api/v1";
     authToken := Some "token";
     localStore := {| store := store_three;
                      storePath := "./sovereign-store.json";
                      fs := false |} |}.

(** A result that acknowledges all three products of [store_three]. *)
Definition result_all_three : SyncResult :=
  {| sync_id := "sync_3";
     result_timestamp := "2026-01-08T00:00:00.000Z";
     results :=
       {| created := [ {| pair_local_id := "local_a"; pair_remote_id := "r1" |};
                       {| pair_local_id := "local_c"; pair_remote_id := "r3" |} ];
          updated := [ {| pair_local_id := "local_b"; pair_remote_id := "r2" |} ];
          deleted := [];
          errors := [] |} |}.

(** A host whose sync endpoint acknowledges all three products. *)
Definition online_host : Host :=
  {| fetch_agent := λ _, Thrown None;
     fetch_sync :=
       λ _, Responded {| success := true; data := Some result_all_three;
                         error := None; headers := None |}
                      (Some "50") (Some "950");
     clock := "2026-01-08T00:00:00.000Z";
     fs_module := true;
     writable := true |}.

Definition sample_agent : Agent :=
  {| Agent_id := "agent_1"; wallet_address := "wallet_1";
     display_name := None; trade := None; level := 1; xp := "0";
     credit_balance := "1000" |}.

(** Authentication endpoints that are down, and ones that accept. *)
Definition auth_down : AuthHost :=
  {| fetch_challenge := λ _, Thrown (Some "fetch failed");
     fetch_verify := λ _, Thrown (Some "fetch failed") |}.

Definition auth_up : AuthHost :=
  {| fetch_challenge :=
       λ _, Responded {| success := true;
                         data := Some {| challenge := "c-1";
                                         challenge_message := "sign c-1" |};
                         error := None; headers := None |} None None;
     fetch_verify :=
       λ _, Responded {| success := true;
                         data := Some {| token := "jwt-1"; agent := sample_agent;
                                         is_new_agent := true |};
                         error := None; headers := None |} None None |}.

(** A product that passes every check of the helper. *)
Definition valid_product : LocalProduct :=
  {| local_id := "local_v"; remote_id := None; name := "Prompt pack";
     description := "Fifty prompts for code review";
     category_id := "prompt-packs"; price := 500; delivery_type := Download;
     delivery_payload := Some (JObj [("url", JStr "https://example.com/p.json")]);
     content_hash := None; file_size_bytes := None; status := Draft;
     created_at := "2026-01-01T00:00:00.000Z";
     updated_at := "2026-01-01T00:00:00.000Z"; synced_at := None |}.

(** Three pending products of which the second carries the id of the
    first, as after a collision of [generateId]. *)
Definition store_duplicate : LocalStore :=
  with_products
    [sample_product "local_a" None Ready;
     sample_product "local_a" (Some "r2") Modified;
     sample_product "local_c" None Ready]
    getDefaultStore.

(** A result that creates ["local_a"], updates ["local_a"] and rejects
    ["local_c"]. *)
Definition result_duplicate : SyncResult :=
  {| sync_id := "sync_1";
     result_timestamp := "2026-01-04T00:00:00.000Z";
     results :=
       {| created := [ {| pair_local_id := "local_a"; pair_remote_id := "r1" |} ];
          updated := [ {| pair_local_id := "local_a"; pair_remote_id := "r2" |} ];
          deleted := [];
          errors := [ {| error_local_id := "local_c";
                         error_text := "category not allowed" |} ] |} |}.


(** * Properties *)

(** ** Searching the product array *)

Lemma findIndex_cons localId p ps :
  findIndex localId (p :: ps)
  = if decide (local_id p = localId) then Some (0%nat, p)
    else prod_map S id <$> findIndex localId ps.
Proof. reflexivity. Qed.

#[local] Arguments findIndex : simpl never.

Lemma findIndex_Some localId ps i p :
  findIndex localId ps = Some (i, p) → ps !! i = Some p ∧ local_id p = localId.
Proof.
  unfold findIndex. intros H. apply list_find_Some in H. tauto.
Qed.

Lemma findIndex_None localId ps :
  findIndex localId ps = None ↔ localId ∉ local_id <$> ps.
Proof.
  unfold findIndex. rewrite list_find_None, list_elem_of_fmap, Forall_forall.
  split.
  - intros H (p & -> & Hp). by apply (H p).
  - intros H p Hp Heq. apply H. eauto.
Qed.

Lemma findIndex_insert localId ps i p q :
  findIndex localId ps = Some (i, p) → local_id q = localId →
  findIndex localId (<[i := q]> ps) = Some (i, q).
Proof.
  revert i. induction ps as [|x ps IH]; intros i; [done|].
  rewrite findIndex_cons. case_decide as Hx.
  - intros [= <- <-] Hq. simpl. rewrite findIndex_cons. by rewrite decide_True.
  - destruct (findIndex localId ps) as [[j y]|] eqn:Hfind; [|done].
    intros [= <- <-] Hq. simpl. rewrite findIndex_cons, decide_False by done.
    by rewrite (IH j).
Qed.

Lemma getProduct_elem_of localId s p :
  getProduct localId s = Some p → p ∈ products s ∧ local_id p = localId.
Proof.
  unfold getProduct. destruct (findIndex localId (products s)) as [[i q]|] eqn:H;
    [|done].
  intros [= <-]. apply findIndex_Some in H as [H ?]. split; [|done].
  by eapply list_elem_of_lookup_2.
Qed.

Lemma getProduct_None localId s :
  getProduct localId s = None ↔ localId ∉ local_id <$> products s.
Proof.
  unfold getProduct. rewrite <- findIndex_None.
  destruct (findIndex localId (products s)); naive_solver.
Qed.

(** With pairwise distinct ids, every product is the one its id finds. *)
Lemma getProduct_NoDup s p :
  NoDup (local_id <$> products s) → p ∈ products s →
  getProduct (local_id p) s = Some p.
Proof.
  unfold getProduct. generalize (products s) as ps.
  induction ps as [|x ps IH]; intros Hnd Hin; [by apply elem_of_nil in Hin|].
  rewrite fmap_cons in Hnd. apply NoDup_cons in Hnd as [Hx Hnd].
  rewrite findIndex_cons. apply elem_of_cons in Hin as [->|Hin].
  - by rewrite decide_True.
  - rewrite decide_False.
    + specialize (IH Hnd Hin).
      destruct (findIndex (local_id p) ps) as [[i q]|]; naive_solver.
    + intros Heq. apply Hx. rewrite Heq. by apply list_elem_of_fmap_2.
Qed.

(** ** [updateProduct] and [markReady] *)

Lemma updateProduct_found localId updates now s existing :
  getProduct localId s = Some existing →
  ∃ index,
    findIndex localId (products s) = Some (index, existing)
    ∧ updateProduct localId updates now s
      = Some (with_products
                (<[index := merge_updates existing updates now]> (products s)) s,
              merge_updates existing updates now).
Proof.
  unfold getProduct, updateProduct.
  destruct (findIndex localId (products s)) as [[i q]|]; [|done].
  intros [= ->]. by exists i.
Qed.

Lemma updateProduct_null localId updates now s :
  updateProduct localId updates now s = None ↔ getProduct localId s = None.
Proof.
  unfold getProduct, updateProduct.
  by destruct (findIndex localId (products s)) as [[i q]|].
Qed.

(** [markReady] returns [null] exactly for an id that is not in the store. *)
Lemma markReady_null localId now s :
  markReady localId now s = None ↔ localId ∉ local_id <$> products s.
Proof. unfold markReady. by rewrite updateProduct_null, getProduct_None. Qed.

(** The status [markReady] leaves: the one [updateProduct] computes from the
    existing record, whatever status was asked for. *)
Lemma markReady_status localId now s existing :
  getProduct localId s = Some existing →
  ∃ s' p, markReady localId now s = Some (s', p)
          ∧ getProduct localId s' = Some p
          ∧ status p = if truthy (remote_id existing) then Modified
                       else status existing.
Proof.
  intros H. unfold markReady.
  destruct (updateProduct_found localId
              {| upd_local_id := None; upd_remote_id := None; upd_name := None;
                 upd_description := None; upd_category_id := None;
                 upd_price := None; upd_delivery_type := None;
                 upd_delivery_payload := None; upd_content_hash := None;
                 upd_file_size_bytes := None; upd_status := Some Ready;
                 upd_created_at := None; upd_updated_at := None;
                 upd_synced_at := None |} now s existing H) as (i & Hi & ->).
  eexists _, _. split; [done|]. split; [|done].
  unfold getProduct. simpl.
  rewrite (findIndex_insert _ _ _ existing); [done|done|].
  simpl. apply getProduct_elem_of in H. tauto.
Qed.

(** C1 (code defect). [markReady] on the draft product of [store_A], which
    has no remote id, returns the product and leaves its status ['draft']:
    the requested ['ready'] is overwritten by the status line of
    [updateProduct]. Nothing is pending afterwards and the manifest has no
    entry for the product. *)
Theorem markReady_draft_stays_draft :
  (status <$> getProduct id_A store_A) = Some Draft
  ∧ (remote_id <$> getProduct id_A store_A) = Some None
  ∧ ∃ s' p, markReady id_A "2026-01-02T00:00:00.000Z" store_A = Some (s', p)
            ∧ status p = Draft
            ∧ (status <$> getProduct id_A s') = Some Draft
            ∧ getUnsyncedProducts s' = []
            ∧ ∀ JSON_stringify agentId now,
                manifest_products
                  (generateSyncManifest JSON_stringify agentId now s') = [].
Proof.
  split; [reflexivity|]. split; [reflexivity|].
  eexists _, _. split; [reflexivity|]. repeat split; reflexivity.
Qed.

(** C9. [updateProduct] on an existing product succeeds, and the status of
    the record it stores and returns is ['modified'] when the existing
    record has a remote id (the test [existing.remote_id ?]) and the previous
    status otherwise, whatever the [status] key of the partial fields. *)
Theorem updateProduct_ignores_status localId updates now s existing :
  getProduct localId s = Some existing →
  ∃ s' p,
    updateProduct localId updates now s = Some (s', p)
    ∧ getProduct localId s' = Some p
    ∧ status p = (if truthy (remote_id existing) then Modified
                  else status existing)
    ∧ ∀ st, updateProduct localId
              {| upd_local_id := upd_local_id updates;
                 upd_remote_id := upd_remote_id updates;
                 upd_name := upd_name updates;
                 upd_description := upd_description updates;
                 upd_category_id := upd_category_id updates;
                 upd_price := upd_price updates;
                 upd_delivery_type := upd_delivery_type updates;
                 upd_delivery_payload := upd_delivery_payload updates;
                 upd_content_hash := upd_content_hash updates;
                 upd_file_size_bytes := upd_file_size_bytes updates;
                 upd_status := st;
                 upd_created_at := upd_created_at updates;
                 upd_updated_at := upd_updated_at updates;
                 upd_synced_at := upd_synced_at updates |} now s
            = Some (s', p).
Proof.
  intros H.
  destruct (updateProduct_found localId updates now s existing H) as (i & Hi & ->).
  eexists _, _. split; [done|]. split; [|split; [done|]].
  - unfold getProduct. simpl.
    rewrite (findIndex_insert _ _ _ existing); [done|done|].
    simpl. apply getProduct_elem_of in H. tauto.
  - intros st. unfold updateProduct. by rewrite Hi.
Qed.

Lemma updateProduct_ignores_status_witness :
  ∃ s' p,
    updateProduct id_A
      {| upd_local_id := None; upd_remote_id := None; upd_name := None;
         upd_description := None; upd_category_id := None;
         upd_price := Some 999; upd_delivery_type := None;
         upd_delivery_payload := None; upd_content_hash := None;
         upd_file_size_bytes := None; upd_status := Some Synced;
         upd_created_at := None; upd_updated_at := None;
         upd_synced_at := None |} "2026-01-02T00:00:00.000Z" store_A
    = Some (s', p)
    ∧ status p = Draft.
Proof.
  destruct (updateProduct_ignores_status id_A
      {| upd_local_id := None; upd_remote_id := None; upd_name := None;
         upd_description := None; upd_category_id := None;
         upd_price := Some 999; upd_delivery_type := None;
         upd_delivery_payload := None; upd_content_hash := None;
         upd_file_size_bytes := None; upd_status := Some Synced;
         upd_created_at := None; upd_updated_at := None;
         upd_synced_at := None |} "2026-01-02T00:00:00.000Z" store_A
      product_A eq_refl) as (s' & p & Hupd & _ & Hst & _).
  exists s', p. split; [exact Hupd | exact Hst].
Defined.

(** ** [generateSyncManifest] *)

Lemma manifest_entry_describes p : describes p (manifest_entry p).
Proof.
  unfold describes, manifest_entry, snapshot.
  destruct (truthy (remote_id p)), (status p); simpl; intuition congruence.
Qed.

(** C3. The entries of the manifest are, in order, those of the products
    whose status is not ['draft']: drafts have no entry, every other product
    has exactly one. The entry's action is ['create'] exactly for a product
    without remote id (the test [!p.remote_id]) in status ['ready'],
    ['update'] exactly for one with a remote id in status ['modified'], and
    ['unchanged'] otherwise; the snapshot, which holds the product's name,
    description, category, price, delivery type, delivery payload, content
    hash and file size, is attached exactly to ['create'] and ['update']
    entries and omitted on ['unchanged'] ones. *)
Theorem generateSyncManifest_entries
    (JSON_stringify : json → list Z) (agentId now : string) (s : LocalStore) :
  let m := generateSyncManifest JSON_stringify agentId now s in
  Forall2 describes (filter (λ p, status p ≠ Draft) (products s)) (manifest_products m)
  ∧ (∀ p, p ∈ products s → status p ≠ Draft →
       ∃ e, e ∈ manifest_products m ∧ describes p e)
  ∧ (∀ e, e ∈ manifest_products m →
       ∃ p, p ∈ products s ∧ status p ≠ Draft ∧ describes p e)
  ∧ agent_id m = agentId.
Proof.
  simpl. split; [|split; [|split; [|done]]].
  - apply Forall2_fmap_r, Forall_Forall2_diag, Forall_forall.
    intros p _. apply manifest_entry_describes.
  - intros p Hin Hst. exists (manifest_entry p). split.
    + apply list_elem_of_fmap_2, list_elem_of_filter. done.
    + apply manifest_entry_describes.
  - intros e (p & -> & Hp)%list_elem_of_fmap.
    apply list_elem_of_filter in Hp as [Hst Hin].
    exists p. split; [done|]. split; [done|]. apply manifest_entry_describes.
Qed.

(** ** [applySyncResults] as a list of assignments *)

Lemma assign_all_app t ops1 ops2 ps :
  assign_all t (ops1 ++ ops2) ps = assign_all t ops2 (assign_all t ops1 ps).
Proof. revert ps. induction ops1 as [|o ops1 IH]; intros ps; simpl; [done|apply IH]. Qed.

Lemma apply_created_assign_all t cs ps :
  apply_created t cs ps
  = assign_all t ((λ c, (pair_local_id c, SetCreated (pair_remote_id c))) <$> cs) ps.
Proof.
  unfold apply_created. revert ps.
  induction cs as [|c cs IH]; intros ps; simpl; [done|apply IH].
Qed.

Lemma apply_updated_assign_all t us ps :
  apply_updated t us ps
  = assign_all t ((λ u, (pair_local_id u, SetUpdated)) <$> us) ps.
Proof.
  unfold apply_updated. revert ps.
  induction us as [|u us IH]; intros ps; simpl; [done|apply IH].
Qed.

Lemma applySyncResults_products r s :
  products (applySyncResults r s)
  = assign_all (result_timestamp r) (assignments (results r)) (products s).
Proof.
  unfold assignments. simpl.
  by rewrite assign_all_app, apply_created_assign_all, apply_updated_assign_all.
Qed.

Lemma assign_local_id t a p : local_id (assign t a p) = local_id p.
Proof. by destruct a. Qed.

Lemma assign_first_cons localId f p ps :
  assign_first localId f (p :: ps)
  = if decide (local_id p = localId) then f p :: ps
    else p :: assign_first localId f ps.
Proof.
  unfold assign_first. rewrite findIndex_cons. case_decide; [done|].
  by destruct (findIndex localId ps) as [[i q]|].
Qed.

(** The array after all assignments, product by product: the head receives
    the assignments addressed to its id, the tail the others. *)
Lemma assign_all_cons t ops p ps :
  assign_all t ops (p :: ps)
  = assign_each t (filter (λ o, o.1 = local_id p) ops) p
    :: assign_all t (filter (λ o, o.1 ≠ local_id p) ops) ps.
Proof.
  revert p ps. induction ops as [|o ops IH]; intros p ps; [done|].
  simpl assign_all at 1. rewrite assign_first_cons.
  destruct (decide (local_id p = o.1)) as [Heq|Hne].
  - rewrite IH, assign_local_id.
    rewrite filter_cons_True by done.
    rewrite (filter_cons_False (λ o, o.1 ≠ local_id p)) by (simpl; auto).
    done.
  - rewrite IH.
    rewrite filter_cons_False by (simpl; auto).
    rewrite (filter_cons_True (λ o, o.1 ≠ local_id p)) by (simpl; auto).
    done.
Qed.

Lemma assign_all_local_ids t ops ps :
  local_id <$> assign_all t ops ps = local_id <$> ps.
Proof.
  revert ops. induction ps as [|p ps IH]; intros ops.
  - induction ops as [|o ops IHo]; [done|]. simpl. exact IHo.
  - rewrite assign_all_cons, !fmap_cons, IH. f_equal.
    unfold assign_each. generalize (filter (λ o, o.1 = local_id p) ops) as l.
    intros l. revert p. induction l as [|o l IHl]; intros p; simpl; [done|].
    by rewrite IHl, assign_local_id.
Qed.

Lemma assign_each_local_id t ops p : local_id (assign_each t ops p) = local_id p.
Proof.
  unfold assign_each. revert p.
  induction ops as [|o l IHl]; intros p; simpl; [done|].
  by rewrite IHl, assign_local_id.
Qed.

Lemma filter_other_id (localId other : string) (ops : list (string * Assignment)) :
  other ≠ localId →
  filter (λ o, o.1 = localId) (filter (λ o, o.1 ≠ other) ops)
  = filter (λ o, o.1 = localId) ops.
Proof. intros Hne. apply list_filter_filter_l. intros o Ho. simpl. congruence. Qed.

(** The product an id finds after the assignments is the one it found
    before, with the assignments addressed to that id applied. *)
Lemma findIndex_assign_all t ops localId ps :
  snd <$> findIndex localId (assign_all t ops ps)
  = assign_each t (filter (λ o, o.1 = localId) ops)
    <$> (snd <$> findIndex localId ps).
Proof.
  revert ops. induction ps as [|p ps IH]; intros ops.
  - replace (assign_all t ops []) with (@nil LocalProduct); [done|].
    induction ops as [|o ops IHo]; [done|]. simpl. exact IHo.
  - rewrite assign_all_cons, !findIndex_cons, assign_each_local_id.
    case_decide as Hp.
    + simpl. by rewrite Hp.
    + specialize (IH (filter (λ o, o.1 ≠ local_id p) ops)).
      rewrite filter_other_id in IH by done.
      destruct (findIndex localId ps) as [[i q]|],
               (findIndex localId (assign_all t _ ps)) as [[j q']|];
        simpl in *; congruence.
Qed.

Lemma getProduct_applySyncResults r localId s :
  getProduct localId (applySyncResults r s)
  = assign_each (result_timestamp r)
      (filter (λ o, o.1 = localId) (assignments (results r)))
    <$> getProduct localId s.
Proof.
  unfold getProduct. rewrite applySyncResults_products.
  apply findIndex_assign_all.
Qed.

Lemma assign_all_nil t ops : assign_all t ops [] = [].
Proof. induction ops as [|o ops IH]; [done|]. simpl. exact IH. Qed.

(** *** The deleted and errors lists, and the history entry *)

(** C10. [applySyncResults] keeps every product in its place (the array of
    local ids is unchanged), the [deleted] and [errors] lists of the result
    have no effect on the store, and exactly one history entry is appended,
    whose [products_synced] is the number of created pairs plus the number
    of updated pairs. *)
Theorem applySyncResults_removes_nothing r s :
  (local_id <$> products (applySyncResults r s)) = (local_id <$> products s)
  ∧ (∀ d e,
       applySyncResults
         {| sync_id := sync_id r; result_timestamp := result_timestamp r;
            results := {| created := created (results r);
                          updated := updated (results r);
                          deleted := d; errors := e |} |} s
       = applySyncResults r s)
  ∧ ∃ entry,
      sync_history (applySyncResults r s) = (sync_history s ++ [entry])%list
      ∧ products_synced entry
        = Z.of_nat (length (created (results r)))
          + Z.of_nat (length (updated (results r))).
Proof.
  split; [|split].
  - rewrite applySyncResults_products. apply assign_all_local_ids.
  - reflexivity.
  - eexists. split; reflexivity.
Qed.

(** *** Applying a result twice *)

Lemma assign_each_snoc t ops o p :
  assign_each t (ops ++ [o]) p = assign t o.2 (assign_each t ops p).
Proof. unfold assign_each. by rewrite foldl_app. Qed.

Lemma last_remote_snoc ops o d :
  last_remote (ops ++ [o]) d
  = match o.2 with SetCreated r => Some r | SetUpdated => last_remote ops d end.
Proof. unfold last_remote. by rewrite foldl_app. Qed.

Lemma assign_each_settled t ops p :
  ops ≠ [] → assign_each t ops p = settled t (last_remote ops (remote_id p)) p.
Proof.
  induction ops as [|o ops IH] using rev_ind; [done|]. intros _.
  rewrite assign_each_snoc, last_remote_snoc.
  destruct (decide (ops = [])) as [->|Hne].
  - destruct o as [lid [r|]]; reflexivity.
  - rewrite IH by done. destruct o as [lid [r|]]; reflexivity.
Qed.

Lemma last_remote_idemp ops d :
  last_remote ops (last_remote ops d) = last_remote ops d.
Proof.
  induction ops as [|o ops IH] using rev_ind; [done|].
  rewrite !last_remote_snoc. destruct o as [lid [r|]]; simpl; [done|exact IH].
Qed.

Lemma assign_each_idemp t ops p :
  assign_each t ops (assign_each t ops p) = assign_each t ops p.
Proof.
  destruct (decide (ops = [])) as [->|Hne]; [done|].
  rewrite !assign_each_settled by done. simpl.
  rewrite last_remote_idemp. reflexivity.
Qed.

Lemma assign_all_idemp t ops ps :
  assign_all t ops (assign_all t ops ps) = assign_all t ops ps.
Proof.
  revert ops. induction ps as [|p ps IH]; intros ops.
  - by rewrite !assign_all_nil.
  - rewrite (assign_all_cons t ops p ps), assign_all_cons.
    rewrite assign_each_local_id, assign_each_idemp, IH. done.
Qed.

(** C5. A second application of the same result changes no product: the
    product array after two applications is the array after one, so the
    status, remote id and sync time of every product (listed or not) are
    those the first application left. The profile, the version and
    [last_sync] are unchanged as well; the history log, which records
    applications and not product state, receives the entry of the second
    application. *)
Theorem applySyncResults_idempotent r s :
  products (applySyncResults r (applySyncResults r s))
  = products (applySyncResults r s)
  ∧ (∀ localId,
       getProduct localId (applySyncResults r (applySyncResults r s))
       = getProduct localId (applySyncResults r s))
  ∧ last_sync (applySyncResults r (applySyncResults r s))
    = last_sync (applySyncResults r s)
  ∧ profile (applySyncResults r (applySyncResults r s))
    = profile (applySyncResults r s)
  ∧ version (applySyncResults r (applySyncResults r s))
    = version (applySyncResults r s)
  ∧ sync_history (applySyncResults r (applySyncResults r s))
    = (sync_history (applySyncResults r s)
       ++ [ {| entry_id := sync_id r;
               direction := Push;
               entry_timestamp := result_timestamp r;
               products_synced :=
                 Z.of_nat (length (created (results r)))
                 + Z.of_nat (length (updated (results r))) |} ])%list.
Proof.
  assert (products (applySyncResults r (applySyncResults r s))
          = products (applySyncResults r s)) as Hps.
  { rewrite (applySyncResults_products r (applySyncResults r s)).
    rewrite (applySyncResults_products r s). apply assign_all_idemp. }
  split; [done|]. split; [|done].
  intros localId. unfold getProduct. by rewrite Hps.
Qed.

(** *** Partial failure *)

Lemma covered_assignments rs localId :
  covered rs localId ↔ filter (λ o, o.1 = localId) (assignments rs) ≠ [].
Proof.
  unfold covered, assignments. rewrite filter_app. split.
  - intros [Hc|Hu] Hnil; apply app_eq_nil in Hnil as [Hnc Hnu].
    + apply list_elem_of_fmap in Hc as (c & -> & Hc).
      eapply (filter_nil_not_elem_of _ _ (pair_local_id c, SetCreated (pair_remote_id c)));
        [exact Hnc|done|].
      by apply (list_elem_of_fmap_2 (λ c, (pair_local_id c, SetCreated (pair_remote_id c)))).
    + apply list_elem_of_fmap in Hu as (u & -> & Hu).
      eapply (filter_nil_not_elem_of _ _ (pair_local_id u, SetUpdated));
        [exact Hnu|done|].
      by apply (list_elem_of_fmap_2 (λ u, (pair_local_id u, SetUpdated))).
  - intros Hne.
    destruct (filter (λ o, o.1 = localId)
                ((λ c, (pair_local_id c, SetCreated (pair_remote_id c))) <$> created rs))
      as [|o l] eqn:Hc.
    + destruct (filter (λ o, o.1 = localId)
                  ((λ u, (pair_local_id u, SetUpdated)) <$> updated rs))
        as [|o l] eqn:Hu; [done|].
      right. assert (o ∈ o :: l) as Ho by apply list_elem_of_here.
      rewrite <- Hu in Ho. apply list_elem_of_filter in Ho as [Heq Ho].
      apply list_elem_of_fmap in Ho as (u & -> & Hin). simpl in Heq. subst.
      by apply list_elem_of_fmap_2.
    + left. assert (o ∈ o :: l) as Ho by apply list_elem_of_here.
      rewrite <- Hc in Ho. apply list_elem_of_filter in Ho as [Heq Ho].
      apply list_elem_of_fmap in Ho as (c & -> & Hin). simpl in Heq. subst.
      by apply list_elem_of_fmap_2.
Qed.

(** A covered product that its id finds ends up synced at the result's time. *)
Lemma applySyncResults_covered r s p :
  getProduct (local_id p) s = Some p → covered (results r) (local_id p) →
  ∃ p', getProduct (local_id p) (applySyncResults r s) = Some p'
        ∧ status p' = Synced
        ∧ synced_at p' = Some (result_timestamp r).
Proof.
  intros Hp Hcov. rewrite getProduct_applySyncResults, Hp. simpl.
  eexists. split; [done|].
  apply covered_assignments in Hcov. by rewrite assign_each_settled.
Qed.

(** A product that is not covered is left exactly as it was. *)
Lemma applySyncResults_uncovered r s p :
  getProduct (local_id p) s = Some p → ¬ covered (results r) (local_id p) →
  getProduct (local_id p) (applySyncResults r s) = Some p.
Proof.
  intros Hp Hcov. rewrite getProduct_applySyncResults, Hp.
  rewrite covered_assignments in Hcov.
  destruct (filter _ (assignments (results r))); [done|]. by destruct Hcov.
Qed.

(** C7, as stated, fails on a store in which two products share a local id:
    [find] reaches the first of them only. In [store_duplicate] all three
    products are pending, the result names the id of the first two in its
    created and updated lists and the third in its errors list; afterwards
    the second product is still ['modified'] and still pending. *)
Lemma partial_failure_counterexample :
  (status <$> products store_duplicate) = [Ready; Modified; Ready]
  ∧ covered (results result_duplicate) "local_a"
  ∧ ¬ covered (results result_duplicate) "local_c"
  ∧ (status <$> products (applySyncResults result_duplicate store_duplicate))
    = [Synced; Modified; Ready]
  ∧ ((λ p, (local_id p, status p))
       <$> getUnsyncedProducts (applySyncResults result_duplicate store_duplicate))
    = [("local_a", Modified); ("local_c", Ready)].
Proof.
  split; [reflexivity|]. split; [left; simpl; repeat constructor|].
  split; [|split; reflexivity].
  unfold covered. simpl. intros [H|H]; revert H; compute_done.
Qed.

(** C7, amended. In a store whose products have pairwise distinct ids, let
    [a], [b] and [c] be pending products, [a] and [b] named by the created
    or updated list of the result and [c] named by its errors list only. After
    [applySyncResults], [a] and [b] are ['synced'] at the result's time, [c]
    is the very record it was (status, remote id and sync time included) and
    is returned by [getUnsyncedProducts], which returns neither [a] nor [b];
    every other product not named in created or updated is untouched too. *)
Theorem applySyncResults_partial_failure r s a b c :
  NoDup (local_id <$> products s) →
  a ∈ products s → b ∈ products s → c ∈ products s →
  pending a → pending b → pending c →
  covered (results r) (local_id a) →
  covered (results r) (local_id b) →
  local_id c ∈ (error_local_id <$> errors (results r)) →
  ¬ covered (results r) (local_id c) →
  (∃ a', getProduct (local_id a) (applySyncResults r s) = Some a'
         ∧ status a' = Synced ∧ synced_at a' = Some (result_timestamp r))
  ∧ (∃ b', getProduct (local_id b) (applySyncResults r s) = Some b'
           ∧ status b' = Synced ∧ synced_at b' = Some (result_timestamp r))
  ∧ getProduct (local_id c) (applySyncResults r s) = Some c
  ∧ c ∈ getUnsyncedProducts (applySyncResults r s)
  ∧ (∀ p, p ∈ getUnsyncedProducts (applySyncResults r s) →
          local_id p ≠ local_id a ∧ local_id p ≠ local_id b)
  ∧ (∀ p, p ∈ products s → ¬ covered (results r) (local_id p) →
          p ∈ products (applySyncResults r s)).
Proof.
  intros Hnd Ha Hb Hc Hpa Hpb Hpc Hca Hcb _ Hnc.
  pose proof (getProduct_NoDup s a Hnd Ha) as Hga.
  pose proof (getProduct_NoDup s b Hnd Hb) as Hgb.
  pose proof (getProduct_NoDup s c Hnd Hc) as Hgc.
  destruct (applySyncResults_covered r s a Hga Hca) as (a' & Ha' & Hsa & Hta).
  destruct (applySyncResults_covered r s b Hgb Hcb) as (b' & Hb' & Hsb & Htb).
  pose proof (applySyncResults_uncovered r s c Hgc Hnc) as Hc'.
  assert (NoDup (local_id <$> products (applySyncResults r s))) as Hnd'.
  { rewrite applySyncResults_products, assign_all_local_ids. done. }
  assert (∀ x x', getProduct (local_id x) (applySyncResults r s) = Some x' →
                  status x' = Synced →
                  ∀ p, p ∈ getUnsyncedProducts (applySyncResults r s) →
                       local_id p ≠ local_id x) as Hsynced.
  { intros x x' Hx Hst p Hp Heq.
    apply list_elem_of_filter in Hp as [Hpend Hin].
    pose proof (getProduct_NoDup _ p Hnd' Hin) as Hgp.
    rewrite Heq, Hx in Hgp. injection Hgp as ->.
    destruct Hpend; congruence. }
  split; [by exists a'|]. split; [by exists b'|]. split; [done|].
  split; [|split].
  - apply list_elem_of_filter. split; [done|].
    by apply getProduct_elem_of in Hc' as [? _].
  - intros p Hp. split; [by eapply (Hsynced a) | by eapply (Hsynced b)].
  - intros p Hp Hncov.
    pose proof (applySyncResults_uncovered r s p
                  (getProduct_NoDup s p Hnd Hp) Hncov) as Hp'.
    by apply getProduct_elem_of in Hp' as [? _].
Qed.

Lemma applySyncResults_partial_failure_witness :
  (status <$> getProduct "local_c" (applySyncResults result_two_of_three store_three))
  = Some Ready
  ∧ sample_product "local_c" None Ready
    ∈ getUnsyncedProducts (applySyncResults result_two_of_three store_three).
Proof.
  destruct (applySyncResults_partial_failure result_two_of_three store_three
              (sample_product "local_a" None Ready)
              (sample_product "local_b" (Some "r2") Modified)
              (sample_product "local_c" None Ready))
    as (_ & _ & Hc & Hin & _).
  - compute_done.
  - simpl. repeat constructor.
  - simpl. repeat constructor.
  - simpl. repeat constructor.
  - left. reflexivity.
  - right. reflexivity.
  - left. reflexivity.
  - left. simpl. repeat constructor.
  - right. simpl. repeat constructor.
  - simpl. repeat constructor.
  - unfold covered. simpl. intros [H|H]; revert H; compute_done.
  - split; [|exact Hin]. simpl in Hc. by rewrite Hc.
Defined.

(** ** The lifecycle over sequences of calls *)

(** Case analysis on a call, with the names the proofs below use. *)
Ltac destruct_op o :=
  destruct o as [product c36 r36 created updated|target updates now
                |target now|target|r].

Lemma truthy_Some r : truthy (Some r) = true ↔ r ≠ EmptyString.
Proof.
  simpl. rewrite negb_true_iff. split.
  - intros H ->. by rewrite String.eqb_refl in H.
  - intros H. by apply String.eqb_neq.
Qed.

Lemma lifecycle_merge existing updates now :
  upd_remote_id updates = None → lifecycle existing →
  lifecycle (merge_updates existing updates now).
Proof.
  unfold lifecycle. simpl. intros ->. simpl.
  destruct (remote_id existing) as [r|] eqn:Hr; simpl; [|done].
  intros [Hne _]. rewrite (proj2 (String.eqb_neq r EmptyString) Hne). simpl. auto.
Qed.

Lemma lifecycle_assign_first localId f ps :
  (∀ i p, findIndex localId ps = Some (i, p) → lifecycle p → lifecycle (f p)) →
  Forall lifecycle ps → Forall lifecycle (assign_first localId f ps).
Proof.
  intros Hf Hps. unfold assign_first.
  destruct (findIndex localId ps) as [[i p]|] eqn:Hfind; [|done].
  apply Forall_insert; [done|]. apply (Hf i); [done|].
  apply findIndex_Some in Hfind as [Hi _]. by eapply Forall_lookup_1.
Qed.

Lemma lifecycle_apply_created t cs ps :
  forallb (λ c, truthy (Some (pair_remote_id c))) cs = true →
  Forall lifecycle ps → Forall lifecycle (apply_created t cs ps).
Proof.
  unfold apply_created. revert ps.
  induction cs as [|c cs IH]; intros ps Hcs Hps; [done|].
  simpl in Hcs. apply andb_true_iff in Hcs as [Hc Hcs]. simpl.
  apply IH; [done|]. apply lifecycle_assign_first; [|done].
  intros _ p _ _. unfold lifecycle. simpl. split; [|auto].
  by apply truthy_Some.
Qed.

Lemma lifecycle_apply_updated t us ps :
  updated_pairs_synced t us ps = true →
  Forall lifecycle ps → Forall lifecycle (apply_updated t us ps).
Proof.
  unfold apply_updated. revert ps.
  induction us as [|u us IH]; intros ps Hus Hps; [done|].
  simpl in Hus. apply andb_true_iff in Hus as [Hu Hus]. simpl.
  apply IH; [done|]. apply lifecycle_assign_first; [|done].
  intros i p Hfind. rewrite Hfind in Hu. unfold lifecycle. simpl.
  destruct (remote_id p) as [r|]; [|done]. intros [Hr _]. auto.
Qed.

Lemma lifecycle_step s o :
  protocol_call s o = true →
  Forall lifecycle (products s) → Forall lifecycle (products (step s o)).
Proof.
  destruct_op o; simpl; intros Hcall Hs.
  - apply Forall_app. split; [done|]. apply Forall_singleton.
    unfold lifecycle. simpl. destruct (new_remote_id product); [done|auto].
  - unfold updateProduct.
    destruct (findIndex target (products s)) as [[i p]|] eqn:Hfind; [|done].
    simpl. apply Forall_insert; [done|].
    apply findIndex_Some in Hfind as [Hi _].
    apply lifecycle_merge; [by destruct (upd_remote_id updates)|].
    by eapply Forall_lookup_1.
  - unfold markReady, updateProduct.
    destruct (findIndex target (products s)) as [[i p]|] eqn:Hfind; [|done].
    simpl. apply Forall_insert; [done|].
    apply findIndex_Some in Hfind as [Hi _].
    apply lifecycle_merge; [done|]. by eapply Forall_lookup_1.
  - unfold deleteProduct.
    destruct (findIndex target (products s)) as [[i p]|]; [|done].
    simpl. by apply Forall_delete.
  - apply andb_true_iff in Hcall as [Hc Hu].
    apply lifecycle_apply_updated; [done|].
    by apply lifecycle_apply_created.
Qed.

Lemma lifecycle_run ops s :
  protocol_calls s ops = true →
  Forall lifecycle (products s) → Forall lifecycle (products (run ops s)).
Proof.
  revert s. induction ops as [|o ops IH]; intros s Hops Hs; [done|].
  simpl in Hops. apply andb_true_iff in Hops as [Ho Hops].
  simpl. apply IH; [done|]. by apply lifecycle_step.
Qed.

(** C2, as stated, fails. [createProduct] copies a [remote_id] given among
    the fields and sets the status ['draft']; and an updated pair naming a
    product that was never created remotely marks it ['synced'] without a
    remote id. *)
Lemma lifecycle_counterexample :
  ((λ p, (remote_id p, status p))
     <$> products
           (run [OpCreate imported_fields "m2x" "0.4fzyo82mvyr"
                   "2026-01-01T00:00:00.000Z" "2026-01-01T00:00:00.001Z"]
                getDefaultStore))
  = [(Some "r1", Draft)]
  ∧ ((λ p, (remote_id p, status p))
       <$> products
             (run [OpCreate sample_fields "m2x" "0.4fzyo82mvyr"
                     "2026-01-01T00:00:00.000Z" "2026-01-01T00:00:00.001Z";
                   OpApply
                     {| sync_id := "sync_1";
                        result_timestamp := "2026-01-04T00:00:00.000Z";
                        results :=
                          {| created := [];
                             updated := [ {| pair_local_id := id_A;
                                             pair_remote_id := "r1" |} ];
                             deleted := []; errors := [] |} |}]
                  getDefaultStore))
    = [(None, Synced)].
Proof. split; reflexivity. Qed.

(** C2, amended. Along every sequence of calls from the empty default store
    in which remote ids are left to the sync protocol ([protocol_calls]), a
    product without a remote id is never ['synced'] or ['modified'], and a
    product with a remote id is never ['draft'] or ['ready']. *)
Theorem lifecycle_monotone ops p :
  protocol_calls getDefaultStore ops = true →
  p ∈ products (run ops getDefaultStore) →
  (remote_id p = None → status p ≠ Synced ∧ status p ≠ Modified)
  ∧ (is_Some (remote_id p) → status p ≠ Draft ∧ status p ≠ Ready)
  ∧ (is_Some (remote_id p) → truthy (remote_id p) = true).
Proof.
  intros Hops Hp.
  assert (lifecycle p) as Hl.
  { eapply (proj1 (Forall_forall _ _)); [|exact Hp].
    apply lifecycle_run; [done|]. simpl. constructor. }
  unfold lifecycle in Hl. destruct (remote_id p) as [r|].
  - destruct Hl as [Hr Hst]. split; [done|]. split.
    + intros _. destruct Hst as [-> | ->]; done.
    + intros _. by apply truthy_Some.
  - split; [|split; by intros [? ?]].
    intros _. destruct Hl as [-> | ->]; done.
Qed.

Lemma lifecycle_monotone_witness :
  ∃ p, getProduct id_A (run sample_session getDefaultStore) = Some p
       ∧ remote_id p = Some "r1" ∧ status p = Modified
       ∧ status p ≠ Draft ∧ status p ≠ Ready.
Proof.
  eexists. split; [reflexivity|]. split; [reflexivity|]. split; [reflexivity|].
  apply (lifecycle_monotone sample_session).
  - reflexivity.
  - simpl. repeat constructor.
  - simpl. eauto.
Defined.

(** ** Identifiers *)

Lemma updateProduct_assign_first localId updates now s s' p :
  updateProduct localId updates now s = Some (s', p) →
  products s'
  = assign_first localId (λ e, merge_updates e updates now) (products s)
  ∧ local_id p = localId.
Proof.
  unfold updateProduct, assign_first.
  destruct (findIndex localId (products s)) as [[i e]|] eqn:Hfind; [|done].
  intros [= <- <-]. split; [done|]. simpl.
  by apply findIndex_Some in Hfind as [_ ?].
Qed.

Lemma assign_first_local_ids localId f ps :
  (∀ q, local_id (f q) = local_id q) →
  local_id <$> assign_first localId f ps = local_id <$> ps.
Proof.
  intros Hf. induction ps as [|p ps IH]; [done|].
  rewrite assign_first_cons. case_decide; rewrite !fmap_cons; [by rewrite Hf|].
  by rewrite IH.
Qed.

(** What an id finds after an assignment to the first product named
    [target]. *)
Lemma findIndex_assign_first localId target f ps :
  (∀ q, local_id (f q) = local_id q) →
  snd <$> findIndex localId (assign_first target f ps)
  = (if decide (target = localId) then f else id) <$> (snd <$> findIndex localId ps).
Proof.
  intros Hf. induction ps as [|p ps IH]; [by case_decide|].
  rewrite assign_first_cons. destruct (decide (local_id p = target)) as [Hp|Hp].
  - rewrite !findIndex_cons, Hf. subst target.
    destruct (decide (local_id p = localId)); [done|].
    by destruct (findIndex localId ps) as [[i q]|].
  - rewrite !findIndex_cons. destruct (decide (local_id p = localId)) as [Hq|Hq].
    + rewrite decide_False by congruence. done.
    + destruct (findIndex localId ps) as [[i q]|],
               (findIndex localId (assign_first target f ps)) as [[j q']|];
        simpl in *; congruence.
Qed.

Lemma findIndex_app_found localId ps qs p :
  snd <$> findIndex localId ps = Some p →
  snd <$> findIndex localId (ps ++ qs) = Some p.
Proof.
  destruct (findIndex localId ps) as [[i q]|] eqn:Hfind; [|done].
  intros [= <-]. unfold findIndex in *.
  by rewrite (list_find_app_l _ _ _ _ _ Hfind).
Qed.

Lemma findIndex_delete_other localId ps i e :
  ps !! i = Some e → local_id e ≠ localId →
  snd <$> findIndex localId (delete i ps) = snd <$> findIndex localId ps.
Proof.
  revert i. induction ps as [|p ps IH]; intros i Hi Hne; [done|].
  destruct i as [|i]; simpl in Hi.
  - injection Hi as ->. simpl. rewrite findIndex_cons, decide_False by done.
    by destruct (findIndex localId ps) as [[j q]|].
  - change (delete (S i) (p :: ps)) with (p :: delete i ps).
    rewrite !findIndex_cons. case_decide; [done|].
    specialize (IH i Hi Hne).
    destruct (findIndex localId ps) as [[j q]|],
             (findIndex localId (delete i ps)) as [[j' q']|];
      simpl in *; congruence.
Qed.

Lemma assign_each_updated_remote t ops p :
  Forall (λ o, o.2 = SetUpdated) ops →
  remote_id (assign_each t ops p) = remote_id p.
Proof.
  unfold assign_each. revert p.
  induction ops as [|o ops IH]; intros p Hops; [done|].
  apply Forall_cons in Hops as [Ho Hops]. simpl. rewrite IH by done.
  by rewrite Ho.
Qed.

Lemma assignments_not_created rs localId :
  forallb (λ c, negb (String.eqb (pair_local_id c) localId)) (created rs) = true →
  Forall (λ o, o.2 = SetUpdated) (filter (λ o, o.1 = localId) (assignments rs)).
Proof.
  intros Hc. unfold assignments. rewrite filter_app. apply Forall_app. split.
  - apply Forall_forall. intros o [Heq Ho]%list_elem_of_filter.
    apply list_elem_of_fmap in Ho as (c & -> & Hin). simpl in Heq.
    rewrite forallb_forall in Hc. apply list_elem_of_In in Hin.
    specialize (Hc c Hin). rewrite Heq, String.eqb_refl in Hc. done.
  - apply Forall_forall. intros o [_ Ho]%list_elem_of_filter.
    by apply list_elem_of_fmap in Ho as (u & -> & _).
Qed.

(** One call that [keeps_remote_id] leaves the product in the store with
    the remote id it had. *)
Lemma keeps_remote_id_step localId o s p :
  keeps_remote_id localId o = true →
  getProduct localId s = Some p →
  ∃ p', getProduct localId (step s o) = Some p' ∧ remote_id p' = remote_id p.
Proof.
  unfold getProduct.
  destruct_op o; simpl; intros Hkeep Hp.
  - exists p. split; [|done]. by apply findIndex_app_found.
  - destruct (updateProduct target updates now s) as [[s' q]|] eqn:Hupd;
      simpl; [|by exists p].
    apply updateProduct_assign_first in Hupd as [-> _].
    rewrite findIndex_assign_first, Hp by done. simpl.
    case_decide as Heq; [|by exists p].
    eexists. split; [done|]. simpl.
    subst target. rewrite String.eqb_refl in Hkeep. simpl in Hkeep.
    by destruct (upd_remote_id updates).
  - unfold markReady.
    destruct (updateProduct target _ now s) as [[s' q]|] eqn:Hupd;
      simpl; [|by exists p].
    apply updateProduct_assign_first in Hupd as [-> _].
    rewrite findIndex_assign_first, Hp by done. simpl.
    case_decide; by eexists.
  - unfold deleteProduct.
    destruct (findIndex target (products s)) as [[i e]|] eqn:Hfind;
      simpl; [|by exists p].
    apply findIndex_Some in Hfind as [Hi He].
    rewrite (findIndex_delete_other _ _ _ e), Hp; [by exists p|done|].
    rewrite He. intros ->. by rewrite String.eqb_refl in Hkeep.
  - pose proof (getProduct_applySyncResults r localId s) as Happ.
    unfold getProduct in Happ. simpl in Happ. rewrite Happ, Hp. simpl.
    eexists. split; [done|].
    by apply assign_each_updated_remote, assignments_not_created.
Qed.

Lemma keeps_remote_id_run localId ops s p :
  forallb (keeps_remote_id localId) ops = true →
  getProduct localId s = Some p →
  ∃ p', getProduct localId (run ops s) = Some p' ∧ remote_id p' = remote_id p.
Proof.
  revert s p. induction ops as [|o ops IH]; intros s p Hops Hp; [by exists p|].
  simpl in Hops. apply andb_true_iff in Hops as [Ho Hops].
  destruct (keeps_remote_id_step localId o s p Ho Hp) as (p1 & Hp1 & Hr1).
  destruct (IH (step s o) p1 Hops Hp1) as (p' & Hp' & Hr').
  exists p'. split; [done|]. congruence.
Qed.

Lemma step_local_ids s o :
  match o with
  | OpCreate _ clock36 random36 _ _ =>
      local_id <$> products (step s o)
      = ((local_id <$> products s) ++ [generateId clock36 random36])%list
  | OpDelete localId =>
      local_id <$> products (step s o) = local_id <$> products s
      ∨ ∃ i, local_id <$> products (step s o) = delete i (local_id <$> products s)
  | _ => local_id <$> products (step s o) = local_id <$> products s
  end.
Proof.
  destruct_op o; simpl.
  - by rewrite fmap_app.
  - destruct (updateProduct target updates now s) as [[s' q]|] eqn:Hupd;
      simpl; [|done].
    apply updateProduct_assign_first in Hupd as [-> _].
    by apply assign_first_local_ids.
  - unfold markReady.
    destruct (updateProduct target _ now s) as [[s' q]|] eqn:Hupd;
      simpl; [|done].
    apply updateProduct_assign_first in Hupd as [-> _].
    by apply assign_first_local_ids.
  - unfold deleteProduct.
    destruct (findIndex target (products s)) as [[i e]|]; simpl; [|by left].
    right. exists i. apply list_fmap_delete.
  - pose proof (applySyncResults_products r s) as Hps. simpl in Hps.
    rewrite Hps. apply assign_all_local_ids.
Qed.

Lemma fresh_ids_run ops s :
  fresh_ids s ops = true →
  NoDup (local_id <$> products s) → NoDup (local_id <$> products (run ops s)).
Proof.
  revert s. induction ops as [|o ops IH]; intros s Hops Hs; [done|].
  simpl in Hops. apply andb_true_iff in Hops as [Ho Hops].
  simpl. apply IH; [done|].
  pose proof (step_local_ids s o) as Hids.
  destruct_op o; try (by rewrite Hids).
  - rewrite Hids. apply NoDup_app. split; [done|]. split; [|apply NoDup_singleton].
    apply bool_decide_eq_true in Ho.
    intros x Hx ->%list_elem_of_singleton. done.
  - destruct Hids as [->|[i ->]]; [done|].
    eapply sublist_NoDup; [exact Hs|apply sublist_delete].
Qed.

(** C4, as stated, fails for the remote id: it is an ordinary key of the
    partial fields, and [updateProduct] copies it over the one the sync
    assigned. *)
Lemma remote_id_counterexample :
  (remote_id <$> getProduct id_A store_A_synced) = Some (Some "r1")
  ∧ (remote_id
       <$> getProduct id_A
             (step store_A_synced
                (OpUpdate id_A
                   {| upd_local_id := None; upd_remote_id := Some (Some "r2");
                      upd_name := None; upd_description := None;
                      upd_category_id := None; upd_price := None;
                      upd_delivery_type := None; upd_delivery_payload := None;
                      upd_content_hash := None; upd_file_size_bytes := None;
                      upd_status := None; upd_created_at := None;
                      upd_updated_at := None; upd_synced_at := None |}
                   "2026-01-05T00:00:00.000Z")))
    = Some (Some "r2").
Proof. split; reflexivity. Qed.

(** Uniqueness of local ids rests on the clock and the random source: two
    creations that read the same values get the same id. *)
Lemma generateId_collision :
  local_id
    <$> products
          (run [OpCreate sample_fields "m2x" "0.4fzyo82mvyr" "t1" "t1";
                OpCreate sample_fields "m2x" "0.4fzyo82mvyr" "t2" "t2"]
               getDefaultStore)
  = [id_A; id_A].
Proof. reflexivity. Qed.

(** C4, amended. (1) [updateProduct] never changes a local id, whatever the
    partial fields contain: the array of ids is the same and the returned
    record carries the id asked for. (2) Along calls other than the deletion
    of the product, an [updateProduct] of it whose fields contain a
    [remote_id] key, and an [applySyncResults] whose created list names it,
    a product with a remote id stays in the store with that remote id.
    (3) From the empty default store, as long as [generateId] returns ids
    that are not in the store, no two products share a local id. *)
Theorem identifiers_stable :
  (∀ localId updates now s s' p,
     updateProduct localId updates now s = Some (s', p) →
     (local_id <$> products s') = (local_id <$> products s)
     ∧ local_id p = localId)
  ∧ (∀ localId ops s p,
       getProduct localId s = Some p → is_Some (remote_id p) →
       forallb (keeps_remote_id localId) ops = true →
       ∃ p', getProduct localId (run ops s) = Some p'
             ∧ remote_id p' = remote_id p)
  ∧ (∀ ops,
       fresh_ids getDefaultStore ops = true →
       NoDup (local_id <$> products (run ops getDefaultStore))).
Proof.
  split; [|split].
  - intros localId updates now s s' p Hupd.
    apply updateProduct_assign_first in Hupd as [-> Hp]. split; [|done].
    by apply assign_first_local_ids.
  - intros localId ops s p Hp _ Hops. by apply keeps_remote_id_run.
  - intros ops Hops. apply fresh_ids_run; [done|]. simpl. constructor.
Qed.

Lemma identifiers_stable_witness :
  (∃ p', getProduct id_A (run (drop 3 sample_session) store_A_synced) = Some p'
         ∧ remote_id p' = Some "r1")
  ∧ NoDup (local_id <$> products (run sample_session getDefaultStore)).
Proof.
  destruct identifiers_stable as (_ & Hremote & Hfresh). split.
  - destruct (Hremote id_A (drop 3 sample_session) store_A_synced
                (assign_created "r1" "2026-01-04T00:00:00.000Z" product_A))
      as (p' & Hp' & Hr'); [reflexivity|simpl; eauto|reflexivity|].
    exists p'. split; [exact Hp'|exact Hr'].
  - apply (Hfresh sample_session). reflexivity.
Defined.

(** ** Persistence *)

Lemma links_json_roundtrip l : links_of_json (links_to_json l) = Some l.
Proof.
  unfold links_of_json, links_to_json. simpl.
  apply mapM_fmap_Some. by intros [k v].
Qed.

Lemma profile_json_roundtrip p : profile_of_json (profile_to_json p) = Some p.
Proof.
  destruct p as [n t d l b sl].
  destruct sl as [sl|].
  - pose proof (links_json_roundtrip sl) as Hsl.
    destruct n, t, d, l, b; unfold profile_of_json, optional_member; simpl;
      rewrite Hsl; reflexivity.
  - destruct n, t, d, l, b; reflexivity.
Qed.

Lemma product_json_roundtrip p : product_of_json (product_to_json p) = Some p.
Proof.
  destruct p as [lid rid n d c pr dt dp ch fsb st ca ua sa].
  destruct rid, dp, ch, fsb, sa, dt, st; reflexivity.
Qed.

Lemma sync_entry_json_roundtrip e :
  sync_entry_of_json (sync_entry_to_json e) = Some e.
Proof. destruct e as [i [|] t n]; reflexivity. Qed.

Lemma store_json_roundtrip s : store_of_json (store_to_json s) = Some s.
Proof.
  destruct s as [v p ps h ls].
  pose proof (profile_json_roundtrip p) as Hp.
  pose proof (mapM_fmap_Some product_of_json product_to_json ps
                product_json_roundtrip) as Hps.
  pose proof (mapM_fmap_Some sync_entry_of_json sync_entry_to_json h
                sync_entry_json_roundtrip) as Hh.
  destruct ls; unfold store_of_json, required_member, optional_member; simpl;
    rewrite Hp; simpl; rewrite Hps; simpl; rewrite Hh; reflexivity.
Qed.

(** A failed write leaves the disk as it was. *)
Lemma save_failed_write fs_module disk m :
  (save fs_module false disk m).2 = disk.
Proof. unfold save. by destruct (fs m), fs_module. Qed.

(** [load] falls back to the default store on an unreadable file and keeps
    the current store when there is no file. *)
Lemma load_fallback disk m :
  (∀ raw, disk !! storePath m = Some (Unreadable raw) →
          store <$> load true disk m = Some getDefaultStore)
  ∧ (disk !! storePath m = None → store <$> load true disk m = Some (store m)).
Proof. unfold load. split; [intros raw ->|intros ->]; reflexivity. Qed.

(** C8. With a working file system, [save()] on a manager holding any store
    [s], followed by [load()] on a new manager constructed for the same
    path, leaves that manager with exactly the store [s]; this covers
    stores with no, one or many products. *)
Theorem save_load_roundtrip (path : option string) (s : LocalStore)
    (disk : gmap string File) (cached : bool) :
  load true
       (save true true disk
             {| store := s;
                storePath := storePath (new_LocalStoreManager path);
                fs := cached |}).2
       (new_LocalStoreManager path)
  = Some {| store := s;
            storePath := storePath (new_LocalStoreManager path);
            fs := true |}.
Proof.
  unfold load, save. simpl.
  destruct cached; simpl; rewrite lookup_insert_eq; simpl;
    rewrite store_json_roundtrip; reflexivity.
Qed.

(** ** [push] *)

Section PushProperties.

Variable JSON_stringify : json → list Z.
Variable parseInt : string → Parsed.

(** [request] turns a thrown error into a failure value. *)
Lemma request_thrown (T : Type) (msg : option string) :
  request parseInt (@Thrown T msg)
  = {| success := false; data := None;
       error := Some {| code := "NETWORK_ERROR";
                        message := default "Unknown error" msg;
                        required := None; endpoint := None |};
       headers := None |}.
Proof. reflexivity. Qed.

(** [request] passes on what the server said about success and data. *)
Lemma request_responded (T : Type) (json : ApiResponse T) (a b : option string) :
  success (request parseInt (Responded json a b)) = success json
  ∧ data (request parseInt (Responded json a b)) = data json
  ∧ error (request parseInt (Responded json a b)) = error json.
Proof. done. Qed.

(** A failed HTTP request yields a response without success or without
    data. *)
Lemma request_failed (T : Type) (outcome : FetchOutcome T) :
  failed outcome →
  success (request parseInt outcome) = false
  ∨ data (request parseInt outcome) = None.
Proof. destruct outcome as [msg|json a b]; simpl; auto. Qed.


End PushProperties.


(** * Further properties of the store manager *)

(** ** [getSyncStats] *)

Lemma status_counts (ps : list LocalProduct) :
  length ps
  = (length (filter (λ p, status p = Synced) ps)
     + length (filter (λ p, status p = Ready ∨ status p = Modified) ps)
     + length (filter (λ p, status p = Draft) ps))%nat.
Proof.
  induction ps as [|p ps IH]; [done|].
  rewrite !filter_cons. simpl. rewrite IH.
  destruct (decide (status p = Synced)),
           (decide (status p = Ready ∨ status p = Modified)),
           (decide (status p = Draft));
    simpl; try lia; exfalso; destruct (status p); intuition congruence.
Qed.

(** X1. The three counters of [getSyncStats] split the total: every product
    is counted exactly once as synced, pending or draft, and the pending
    counter is the number of products [getUnsyncedProducts] returns. *)
Theorem getSyncStats_partition s :
  stats_total (getSyncStats s)
  = stats_synced (getSyncStats s) + stats_pending (getSyncStats s)
    + stats_drafts (getSyncStats s)
  ∧ stats_pending (getSyncStats s) = Z.of_nat (length (getUnsyncedProducts s))
  ∧ (stats_pending (getSyncStats s) = 0 ↔ getUnsyncedProducts s = []).
Proof.
  split; [|split].
  - simpl. rewrite (status_counts (products s)) at 1. lia.
  - reflexivity.
  - unfold getUnsyncedProducts, pending. simpl. split.
    + intros H. apply length_zero_iff_nil. lia.
    + intros ->. done.
Qed.

(** ** [createProduct] *)

Lemma findIndex_app localId ps qs :
  snd <$> findIndex localId (ps ++ qs)%list
  = match snd <$> findIndex localId ps with
    | Some p => Some p
    | None => snd <$> findIndex localId qs
    end.
Proof.
  induction ps as [|p ps IH]; [reflexivity|].
  change ((p :: ps) ++ qs)%list with (p :: (ps ++ qs)%list).
  rewrite !findIndex_cons. case_decide; [done|].
  destruct (findIndex localId ps) as [[i x]|],
           (findIndex localId (ps ++ qs)%list) as [[j y]|],
           (findIndex localId qs) as [[k z]|]; simpl in *; congruence.
Qed.

(** X2. [createProduct] appends one ['draft'] record carrying the generated
    id and the given fields, and leaves every earlier record in place. The
    new record is not pending and adds nothing to the manifest. An id finds
    what it found before; the generated id finds the new record only if no
    earlier product has that id (on a collision the earlier one is found). *)
Theorem createProduct_appends product clock36 random36 created updated s :
  let s' := (createProduct product clock36 random36 created updated s).1 in
  let p := (createProduct product clock36 random36 created updated s).2 in
  products s' = (products s ++ [p])%list
  ∧ local_id p = generateId clock36 random36
  ∧ status p = Draft
  ∧ remote_id p = new_remote_id product
  ∧ created_at p = created ∧ updated_at p = updated
  ∧ getUnsyncedProducts s' = getUnsyncedProducts s
  ∧ (∀ JSON_stringify agentId now,
       manifest_products (generateSyncManifest JSON_stringify agentId now s')
       = manifest_products (generateSyncManifest JSON_stringify agentId now s))
  ∧ (∀ localId,
       getProduct localId s'
       = match getProduct localId s with
         | Some q => Some q
         | None => if decide (localId = generateId clock36 random36)
                   then Some p else None
         end).
Proof.
  simpl. repeat split.
  - unfold getUnsyncedProducts. simpl. rewrite filter_app, filter_cons_False.
    + by rewrite filter_nil, app_nil_r.
    + unfold pending. simpl. by intros [?|?].
  - intros J agentId now. simpl. rewrite filter_app, filter_cons_False.
    + by rewrite filter_nil, app_nil_r.
    + simpl. auto.
  - intros localId. unfold getProduct. simpl. rewrite findIndex_app.
    destruct (snd <$> findIndex localId (products s)); [done|].
    rewrite findIndex_cons. simpl. by repeat case_decide.
Qed.

(** ** [deleteProduct] *)

Lemma findIndex_delete_found localId ps i e :
  NoDup (local_id <$> ps) → findIndex localId ps = Some (i, e) →
  localId ∉ local_id <$> delete i ps.
Proof.
  revert i. induction ps as [|p ps IH]; intros i Hnd; [done|].
  rewrite fmap_cons in Hnd. apply NoDup_cons in Hnd as [Hp Hnd].
  rewrite findIndex_cons. case_decide as Hid.
  - intros [= <- <-]. simpl. by rewrite <- Hid.
  - destruct (findIndex localId ps) as [[j x]|] eqn:Hfind; [|done].
    intros [= <- <-]. change (delete (S j) (p :: ps)) with (p :: delete j ps).
    rewrite fmap_cons, not_elem_of_cons. split; [done|]. by apply (IH j).
Qed.

(** X3. [deleteProduct] returns [false] exactly for an id that is not in
    the store, and then changes nothing. When it returns [true] the store
    has one product less and every other id finds what it found before; if
    ids are pairwise distinct the deleted id finds nothing any more. *)
Theorem deleteProduct_effect localId s :
  ((deleteProduct localId s).2 = false ↔ localId ∉ local_id <$> products s)
  ∧ ((deleteProduct localId s).2 = false → (deleteProduct localId s).1 = s)
  ∧ ((deleteProduct localId s).2 = true →
       S (length (products (deleteProduct localId s).1)) = length (products s)
       ∧ (∀ other, other ≠ localId →
            getProduct other (deleteProduct localId s).1 = getProduct other s)
       ∧ (NoDup (local_id <$> products s) →
            getProduct localId (deleteProduct localId s).1 = None)).
Proof.
  unfold deleteProduct.
  destruct (findIndex localId (products s)) as [[i e]|] eqn:Hfind; simpl.
  - split; [|split; [done|]].
    + split; [done|]. intros Hnot. apply findIndex_None in Hnot. congruence.
    + intros _. pose proof (findIndex_Some _ _ _ _ Hfind) as [Hi He].
      split; [|split].
      * rewrite length_delete by eauto.
        apply lookup_lt_Some in Hi. lia.
      * intros other Hne. unfold getProduct. simpl.
        apply (findIndex_delete_other _ _ _ e); [done|congruence].
      * intros Hnd. apply getProduct_None. simpl.
        by apply (findIndex_delete_found _ _ _ e).
  - split; [|split; [done|done]].
    split; [|done]. intros _. by apply findIndex_None.
Qed.

(** ** [updateProduct] *)



(** ** The store profile *)


(** X6. [updateProfile] touches the profile only: products, pending
    products, history and [last_sync] are as before, the manifest lists the
    same entries, and it carries the merged profile. *)
Theorem updateProfile_frame u s :
  products (updateProfile u s) = products s
  ∧ getUnsyncedProducts (updateProfile u s) = getUnsyncedProducts s
  ∧ sync_history (updateProfile u s) = sync_history s
  ∧ last_sync (updateProfile u s) = last_sync s
  ∧ getSyncStats (updateProfile u s) = getSyncStats s
  ∧ ∀ JSON_stringify agentId now,
      manifest_products (generateSyncManifest JSON_stringify agentId now
                           (updateProfile u s))
      = manifest_products (generateSyncManifest JSON_stringify agentId now s)
      ∧ checksum (generateSyncManifest JSON_stringify agentId now
                    (updateProfile u s))
        = checksum (generateSyncManifest JSON_stringify agentId now s)
      ∧ store_profile (generateSyncManifest JSON_stringify agentId now
                         (updateProfile u s))
        = Some (merge_profile (profile s) u).
Proof. repeat split. Qed.

(** ** The manifest checksum *)

Lemma to_int32_range z : - 2 ^ 31 ≤ to_int32 z < 2 ^ 31.
Proof.
  unfold to_int32.
  pose proof (Z.mod_pos_bound (z + 2 ^ 31) (2 ^ 32) ltac:(lia)). lia.
Qed.

Lemma to_int32_congruent a b :
  (a - b) mod 2 ^ 32 = 0 → to_int32 a = to_int32 b.
Proof.
  unfold to_int32. intros H. f_equal.
  apply Z.mod_divide in H; [|lia]. destruct H as [k Hk].
  replace (a + 2 ^ 31) with (b + 2 ^ 31 + k * 2 ^ 32) by lia.
  apply Z.mod_add. lia.
Qed.

Lemma to_int32_self z : (to_int32 z - z) mod 2 ^ 32 = 0.
Proof.
  unfold to_int32. apply Z.mod_divide; [lia|].
  exists (- ((z + 2 ^ 31) / 2 ^ 32)).
  pose proof (Z.div_mod (z + 2 ^ 31) (2 ^ 32) ltac:(lia)). lia.
Qed.

Lemma checksum_step_polynomial a c :
  checksum_step (to_int32 a) c = to_int32 (31 * a + c).
Proof.
  unfold checksum_step. apply to_int32_congruent.
  rewrite Z.shiftl_mul_pow2 by lia.
  pose proof (to_int32_self a) as Ha.
  pose proof (to_int32_self (to_int32 a)) as Haa.
  pose proof (to_int32_self (to_int32 (to_int32 a) * 2 ^ 5)) as Hs.
  apply Z.mod_divide in Ha; [|lia]. apply Z.mod_divide in Haa; [|lia].
  apply Z.mod_divide in Hs; [|lia]. apply Z.mod_divide; [lia|].
  destruct Ha as [k1 H1], Haa as [k2 H2], Hs as [k3 H3].
  exists (k3 + 32 * k2 + 31 * k1). lia.
Qed.

Lemma checksum_fold_polynomial a codes :
  foldl checksum_step (to_int32 a) codes
  = to_int32 (foldl (λ h c, 31 * h + c) a codes).
Proof.
  revert a. induction codes as [|c codes IH]; intros a; [done|].
  simpl. by rewrite checksum_step_polynomial, IH.
Qed.

(** X7. The number [generateChecksum] prints is the absolute value of the
    base-31 polynomial of the text's code units reduced to a signed 32-bit
    integer. It lies between 0 and 2^31, depends on the text only, and is
    ["0"] for the empty text. *)
Theorem generateChecksum_polynomial (JSON_stringify : json → list Z) data :
  generateChecksum JSON_stringify data
  = toString16 (Z.abs (to_int32 (polynomial31 (JSON_stringify data))))
  ∧ 0 ≤ Z.abs (to_int32 (polynomial31 (JSON_stringify data))) ≤ 2 ^ 31
  ∧ (∀ JSON_stringify' data',
       JSON_stringify' data' = JSON_stringify data →
       generateChecksum JSON_stringify' data'
       = generateChecksum JSON_stringify data)
  ∧ (JSON_stringify data = [] → generateChecksum JSON_stringify data = "0").
Proof.
  unfold generateChecksum, polynomial31.
  pose proof (checksum_fold_polynomial 0 (JSON_stringify data)) as H.
  change (to_int32 0) with 0 in H. rewrite H.
  split; [done|]. split; [|split].
  - pose proof (to_int32_range (foldl (λ h c, 31 * h + c) 0 (JSON_stringify data))).
    lia.
  - intros J' data' Heq. by rewrite Heq, H.
  - intros ->. reflexivity.
Qed.

(** ** Manifest and pending products *)

Lemma manifest_entry_action p :
  lifecycle p →
  action (manifest_entry p)
  = match status p with
    | Ready => Create
    | Modified => Update
    | _ => Unchanged
    end.
Proof.
  unfold lifecycle, manifest_entry. simpl.
  destruct (remote_id p) as [r|] eqn:Hr.
  - intros [Hne Hst]. rewrite (proj2 (truthy_Some r) Hne). simpl.
    destruct Hst as [-> | ->]; reflexivity.
  - simpl. intros [-> | ->]; reflexivity.
Qed.

Lemma actionable_entries_pending ps :
  Forall lifecycle ps →
  entry_local_id
    <$> filter (λ e, action e ≠ Unchanged)
               (manifest_entry <$> filter (λ p, status p ≠ Draft) ps)
  = local_id <$> filter pending ps.
Proof.
  induction ps as [|p ps IH]; [done|].
  intros [Hp Hps]%Forall_cons. specialize (IH Hps).
  pose proof (manifest_entry_action p Hp) as Hact.
  rewrite !(filter_cons _ p).
  destruct (decide (status p ≠ Draft)) as [Hnd|Hd],
           (decide (pending p)) as [Hpend|Hnp].
  - rewrite fmap_cons, filter_cons, decide_True.
    + by rewrite !fmap_cons, IH.
    + rewrite Hact. by destruct Hpend as [-> | ->].
  - rewrite fmap_cons, filter_cons, decide_False; [done|].
    rewrite Hact. unfold pending in Hnp.
    destruct (status p); intuition congruence.
  - exfalso. unfold pending in Hpend. destruct (status p); intuition congruence.
  - done.
Qed.

(** X8. In a store whose products are consistent (no remote id with
    ['draft'] or ['ready'], a remote id with ['synced'] or ['modified']),
    the manifest entries with action ['create'] or ['update'] are, in order,
    exactly the products [getUnsyncedProducts] returns: ['create'] for the
    ready ones and ['update'] for the modified ones. No entry ever has
    action ['delete']. *)
Theorem manifest_acts_on_pending (JSON_stringify : json → list Z)
    (agentId now : string) (s : LocalStore) :
  Forall lifecycle (products s) →
  entry_local_id
    <$> filter (λ e, action e ≠ Unchanged)
               (manifest_products (generateSyncManifest JSON_stringify agentId now s))
  = local_id <$> getUnsyncedProducts s
  ∧ (∀ p, p ∈ products s → status p = Ready →
       action (manifest_entry p) = Create)
  ∧ (∀ p, p ∈ products s → status p = Modified →
       action (manifest_entry p) = Update)
  ∧ (∀ e, e ∈ manifest_products (generateSyncManifest JSON_stringify agentId now s) →
       action e ≠ Delete).
Proof.
  intros Hs. split; [by apply actionable_entries_pending|].
  assert (∀ p, p ∈ products s → lifecycle p) as Hl
    by (by apply Forall_forall).
  split; [|split].
  - intros p Hp Hst. rewrite manifest_entry_action, Hst by auto. done.
  - intros p Hp Hst. rewrite manifest_entry_action, Hst by auto. done.
  - simpl. intros e (p & -> & Hp)%list_elem_of_fmap.
    apply list_elem_of_filter in Hp as [_ Hp].
    rewrite manifest_entry_action by auto. by destruct (status p).
Qed.

Lemma manifest_acts_on_pending_witness :
  entry_local_id
    <$> filter (λ e, action e ≠ Unchanged)
               (manifest_products
                  (generateSyncManifest (λ _, []) "agent_1"
                     "2026-01-06T00:00:00.000Z" store_three))
  = ["local_a"; "local_b"; "local_c"].
Proof.
  destruct (manifest_acts_on_pending (λ _, []) "agent_1"
              "2026-01-06T00:00:00.000Z" store_three) as [H _];
    [|exact H].
  simpl. unfold lifecycle.
  apply Forall_cons. split; [by right|].
  apply Forall_cons. split; [split; [done|by right]|].
  apply Forall_cons. split; [by right|]. constructor.
Defined.

(** ** More on [applySyncResults] *)

Lemma assign_first_absent localId f ps :
  localId ∉ local_id <$> ps → assign_first localId f ps = ps.
Proof.
  intros H. apply findIndex_None in H. unfold assign_first. by rewrite H.
Qed.

(** X9. Pairs that name no product of the store are skipped: when no id of
    the created and updated lists is in the store, every product is left as
    it was (the history entry and [last_sync] are still written). *)
Theorem applySyncResults_unknown_ids r s :
  (∀ localId, covered (results r) localId → localId ∉ local_id <$> products s) →
  products (applySyncResults r s) = products s
  ∧ last_sync (applySyncResults r s) = Some (result_timestamp r)
  ∧ length (sync_history (applySyncResults r s)) = S (length (sync_history s)).
Proof.
  intros Hcov. split; [|split; [done|]].
  - rewrite applySyncResults_products.
    assert (∀ o, o ∈ assignments (results r) → o.1 ∉ local_id <$> products s)
      as Hops.
    { intros o Ho. apply Hcov. unfold covered, assignments in *.
      apply elem_of_app in Ho as [Ho|Ho];
        apply list_elem_of_fmap in Ho as (c & -> & Hc); simpl;
        [left|right]; by apply list_elem_of_fmap_2. }
    revert Hops. generalize (assignments (results r)) as ops.
    induction ops as [|o ops IH]; intros Hops; [done|].
    simpl. rewrite assign_first_absent.
    + apply IH. intros o' Ho'. apply Hops. by right.
    + apply Hops. by left.
  - simpl. rewrite length_app. simpl. lia.
Qed.

Lemma applySyncResults_unknown_ids_witness :
  products
    (applySyncResults
       {| sync_id := "sync_9"; result_timestamp := "2026-01-07T00:00:00.000Z";
          results := {| created := [ {| pair_local_id := "local_gone";
                                        pair_remote_id := "r9" |} ];
                        updated := []; deleted := ["local_a"]; errors := [] |} |}
       store_three)
  = products store_three.
Proof.
  apply (applySyncResults_unknown_ids
           {| sync_id := "sync_9"; result_timestamp := "2026-01-07T00:00:00.000Z";
              results := {| created := [ {| pair_local_id := "local_gone";
                                            pair_remote_id := "r9" |} ];
                            updated := []; deleted := ["local_a"];
                            errors := [] |} |} store_three).
  intros localId [H|H]; simpl in H.
  - apply list_elem_of_singleton in H as ->. compute_done.
  - by apply elem_of_nil in H.
Defined.





Lemma filter_none {A} (P : A → Prop) `{!∀ x, Decision (P x)} (l : list A) :
  (∀ x, x ∈ l → ¬ P x) → filter P l = [].
Proof.
  induction l as [|x l IH]; intros Hno; [done|].
  rewrite filter_cons_False by (apply Hno; by left).
  apply IH. intros y Hy. apply Hno. by right.
Qed.

Lemma applySyncResults_settles_product r s p' :
  NoDup (local_id <$> products s) →
  (∀ p, p ∈ products s → pending p → covered (results r) (local_id p)) →
  p' ∈ products (applySyncResults r s) → ¬ pending p'.
Proof.
  intros Hnd Hall Hin.
  assert (NoDup (local_id <$> products (applySyncResults r s))) as Hnd'.
  { by rewrite applySyncResults_products, assign_all_local_ids. }
  pose proof (getProduct_NoDup _ p' Hnd' Hin) as Hget.
  rewrite getProduct_applySyncResults in Hget.
  destruct (getProduct (local_id p') s) as [p|] eqn:Hp; [|done].
  simpl in Hget. injection Hget as Hp'.
  apply getProduct_elem_of in Hp as [Hpin Hid].
  destruct (filter (λ o, o.1 = local_id p') (assignments (results r)))
    as [|o ops] eqn:Hops.
  - simpl in Hp'. subst p'. intros Hpend.
    apply (Hall p Hpin) in Hpend. apply covered_assignments in Hpend.
    by rewrite Hops in Hpend.
  - rewrite assign_each_settled in Hp' by done. subst p'.
    unfold pending. simpl. by intros [?|?].
Qed.

(** X11. When a result acknowledges every pending product (each one is
    named in its created or updated list) of a store with pairwise distinct
    ids, nothing is pending afterwards and the next manifest holds
    ['unchanged'] entries only, so pushing again sends no data. *)
Theorem applySyncResults_settles r s :
  NoDup (local_id <$> products s) →
  (∀ p, p ∈ products s → pending p → covered (results r) (local_id p)) →
  getUnsyncedProducts (applySyncResults r s) = []
  ∧ stats_pending (getSyncStats (applySyncResults r s)) = 0
  ∧ ∀ JSON_stringify agentId now e,
      e ∈ manifest_products
            (generateSyncManifest JSON_stringify agentId now (applySyncResults r s)) →
      action e = Unchanged ∧ entry_data e = None.
Proof.
  intros Hnd Hall.
  pose proof (applySyncResults_settles_product r s) as Hsettled.
  assert (getUnsyncedProducts (applySyncResults r s) = []) as Hnone.
  { apply filter_none. eauto. }
  split; [done|]. split.
  - change (stats_pending (getSyncStats (applySyncResults r s)))
      with (Z.of_nat (length (getUnsyncedProducts (applySyncResults r s)))).
    by rewrite Hnone.
  - intros J agentId now e (p & -> & Hp)%list_elem_of_fmap.
    apply list_elem_of_filter in Hp as [_ Hp].
    specialize (Hsettled p Hnd Hall Hp). unfold pending in Hsettled.
    unfold manifest_entry. simpl.
    destruct (status p); try (exfalso; apply Hsettled; auto; fail);
      by destruct (truthy (remote_id p)).
Qed.

Lemma applySyncResults_settles_witness :
  getUnsyncedProducts (applySyncResults result_all_three store_three) = [].
Proof.
  apply (applySyncResults_settles result_all_three store_three).
  - compute_done.
  - intros p Hp _. unfold covered. simpl in *.
    repeat (apply elem_of_cons in Hp as [->|Hp]);
      [left|right|left|by apply elem_of_nil in Hp]; simpl; repeat constructor.
Defined.

(** X12. After [deleteProduct] has removed a product from a store with
    pairwise distinct ids, no manifest entry and no pending product carry
    its id: a deletion is never reported to the marketplace, and the
    history does not record it. *)
Theorem deleteProduct_not_in_manifest localId s :
  NoDup (local_id <$> products s) →
  (deleteProduct localId s).2 = true →
  (∀ JSON_stringify agentId now e,
     e ∈ manifest_products
           (generateSyncManifest JSON_stringify agentId now
              (deleteProduct localId s).1) →
     entry_local_id e ≠ localId)
  ∧ (∀ p, p ∈ getUnsyncedProducts (deleteProduct localId s).1 →
          local_id p ≠ localId)
  ∧ sync_history (deleteProduct localId s).1 = sync_history s.
Proof.
  unfold deleteProduct. intros Hnd.
  destruct (findIndex localId (products s)) as [[i x]|] eqn:Hfind; [|done].
  simpl. intros _.
  pose proof (findIndex_delete_found _ _ _ _ Hnd Hfind) as Hgone.
  split; [|split; [|done]].
  - intros J agentId now e (p & -> & Hp)%list_elem_of_fmap.
    apply list_elem_of_filter in Hp as [_ Hp]. simpl. intros Heq.
    apply Hgone. rewrite <- Heq. by apply list_elem_of_fmap_2.
  - intros p Hp Heq. unfold getUnsyncedProducts in Hp. simpl in Hp.
    apply list_elem_of_filter in Hp as [_ Hp].
    apply Hgone. rewrite <- Heq. by apply list_elem_of_fmap_2.
Qed.

Lemma deleteProduct_not_in_manifest_witness :
  Forall (λ p, local_id p ≠ "local_b")
         (getUnsyncedProducts (deleteProduct "local_b" store_three).1).
Proof.
  destruct (deleteProduct_not_in_manifest "local_b" store_three)
    as (_ & H & _); [compute_done|reflexivity|].
  apply Forall_forall. exact H.
Defined.

(** * Further properties of the client *)

Section ClientProperties.

Variable JSON_stringify : json → list Z.
Variable parseInt : string → Parsed.

(** X13. When the sync endpoint answers with success and a [SyncResult],
    and the file system works, [push] called with an agent id returns that
    response, leaves the client with the result applied to its store (URL,
    token and store path as before), and writes that store to the store
    path, from where a new manager loads it back. *)
Theorem push_success_persists (h : Host) (agentId : option string)
    (c : SovereignClient) (disk : gmap string File)
    (json : ApiResponse SyncResult) (a b : option string) (r : SyncResult) :
  truthy agentId = true →
  (∀ req, fetch_sync h req = Responded json a b) →
  success json = true → data json = Some r →
  fs_module h = true → writable h = true →
  ∃ response c' disk',
    push JSON_stringify parseInt h agentId c disk
    = (response, c', disk',
       [CallGenerateSyncManifest (default EmptyString agentId);
        CallApplySyncResults r; CallSave])
    ∧ success response = true ∧ data response = Some r
    ∧ store (localStore c') = applySyncResults r (store (localStore c))
    ∧ storePath (localStore c') = storePath (localStore c)
    ∧ baseUrl c' = baseUrl c ∧ authToken c' = authToken c
    ∧ (∀ path, path ≠ storePath (localStore c) → disk' !! path = disk !! path)
    ∧ load true disk'
           {| store := getDefaultStore;
              storePath := storePath (localStore c);
              fs := false |}
      = Some {| store := applySyncResults r (store (localStore c));
                storePath := storePath (localStore c);
                fs := true |}.
Proof.
  intros Hid Hfetch Hs Hd Hfs Hw. unfold push.
  rewrite Hid. simpl. rewrite Hid. simpl. rewrite Hfetch. simpl.
  rewrite Hs, Hd. unfold save. rewrite Hfs, Hw. simpl.
  destruct (fs (localStore c)); eexists _, _, _; (split; [reflexivity|]);
    simpl; repeat (split; [done|]); (split;
      [intros path Hne; by rewrite lookup_insert_ne
      |unfold load; simpl; rewrite lookup_insert_eq; simpl;
       by rewrite store_json_roundtrip]).
Qed.

(** X14. [push] resolves the agent id before anything else. A non-empty
    argument is used as it is, whatever [/auth/me] would say. Without one,
    the id in the data of the [/auth/me] response is used, even when that
    response is not flagged successful; and when that yields no id [push]
    returns the [NOT_AUTHENTICATED] failure, makes no call on the store and
    never reaches the sync endpoint. *)
Theorem push_identity (h : Host) (agentId : option string)
    (c : SovereignClient) (disk : gmap string File) :
  (truthy agentId = true →
     ∃ rest, (push JSON_stringify parseInt h agentId c disk).2
             = CallGenerateSyncManifest (default EmptyString agentId) :: rest)
  ∧ (truthy agentId = false →
     ∀ ag, data (getAgentInfo parseInt h c) = Some ag →
           truthy (Some (Agent_id ag)) = true →
           ∃ rest, (push JSON_stringify parseInt h agentId c disk).2
                   = CallGenerateSyncManifest (Agent_id ag) :: rest)
  ∧ (truthy agentId = false →
     truthy (Agent_id <$> data (getAgentInfo parseInt h c)) = false →
     ∀ fetch_sync',
       push JSON_stringify parseInt
            {| fetch_agent := fetch_agent h; fetch_sync := fetch_sync';
               clock := clock h; fs_module := fs_module h;
               writable := writable h |} agentId c disk
       = (not_authenticated, c, disk, [])).
Proof.
  split; [|split].
  - intros Hid. unfold push. rewrite Hid. simpl. rewrite Hid. simpl.
    destruct (request parseInt (fetch_sync h _)) as [[|] [r|] e hd]; simpl;
      try destruct (save _ _ _ _); simpl; eauto.
  - intros Hid ag Hag Hagid. unfold push. rewrite Hid, Hag. simpl.
    simpl in Hagid. rewrite Hagid. simpl.
    destruct (request parseInt (fetch_sync h _)) as [[|] [r|] e hd]; simpl;
      try destruct (save _ _ _ _); simpl; eauto.
  - intros Hid Hnone fetch_sync'. unfold push. rewrite Hid.
    change (getAgentInfo parseInt
              {| fetch_agent := fetch_agent h; fetch_sync := fetch_sync';
                 clock := clock h; fs_module := fs_module h;
                 writable := writable h |} c)
      with (getAgentInfo parseInt h c).
    by rewrite Hnone.
Qed.

(** X15. [authenticate] changes nothing but the token, and the token only
    when the verify response has success and data: then the client holds
    the token of that response. In every other case that returns (failed
    challenge, failed verification) and when the signer rejects, the client
    is exactly as before. *)
Theorem authenticate_token (h : AuthHost) (walletAddress : string)
    (signMessage : option (string → option string)) (c : SovereignClient) :
  let result := (authenticate parseInt h walletAddress signMessage c).1 in
  let c' := (authenticate parseInt h walletAddress signMessage c).2 in
  baseUrl c' = baseUrl c ∧ localStore c' = localStore c
  ∧ (∀ response session,
       result = Some response → success response = true →
       data response = Some session → authToken c' = Some (token session))
  ∧ (∀ response, result = Some response →
       success response = false ∨ data response = None → c' = c)
  ∧ (result = None → c' = c).
Proof.
  unfold authenticate.
  destruct (request parseInt (fetch_challenge h _)) as [[|] [ch|] e1 h1];
    simpl; try (repeat split; intros; simplify_eq; done).
  destruct (match signMessage with Some sign => sign _ | None => _ end)
    as [sig|]; simpl; [|repeat split; intros; simplify_eq; done].
  destruct (request parseInt (fetch_verify h _)) as [[|] [session|] e2 h2];
    simpl; repeat split; intros; simplify_eq; try done;
    simpl in *; intuition congruence.
Qed.

(** X16. When the challenge request fails (it throws, or the response has
    no success flag or no data), [authenticate] returns a failure carrying
    the error of that request, whatever the signer and the verify endpoint
    would do: the signer is not asked and cannot make the call reject. *)
Theorem authenticate_challenge_failure (h : AuthHost) (walletAddress : string)
    (signMessage : option (string → option string)) (c : SovereignClient)
    (outcome : FetchOutcome Challenge) :
  (∀ req, fetch_challenge h req = outcome) →
  success (request parseInt outcome) = false
  ∨ data (request parseInt outcome) = None →
  authenticate parseInt h walletAddress signMessage c
  = (Some {| success := false; data := None;
             error := error (request parseInt outcome); headers := None |}, c).
Proof.
  intros Hfetch Hfail. unfold authenticate. rewrite Hfetch.
  destruct Hfail as [-> | ->]; [done|].
  by destruct (success (request parseInt outcome)).
Qed.

(** X17. After an [authenticate] whose challenge and verification succeed,
    with the default signature or with a signer that resolves, the requests
    of the client carry the new token as bearer authorization (when the
    token is not the empty string). *)
Theorem authenticate_then_request (h : AuthHost) (walletAddress : string)
    (signMessage : option (string → option string))
    (c : SovereignClient) (ch : Challenge) (session : Session)
    (j1 : ApiResponse Challenge) (j2 : ApiResponse Session)
    (a1 b1 a2 b2 : option string) :
  (∀ req, fetch_challenge h req = Responded j1 a1 b1) →
  success j1 = true → data j1 = Some ch →
  (∀ sign, signMessage = Some sign → is_Some (sign (challenge_message ch))) →
  (∀ req, fetch_verify h req = Responded j2 a2 b2) →
  success j2 = true → data j2 = Some session →
  token session ≠ EmptyString →
  (authenticate parseInt h walletAddress signMessage c).1
  = Some (request parseInt (Responded j2 a2 b2))
  ∧ authToken (authenticate parseInt h walletAddress signMessage c).2
    = Some (token session)
  ∧ ∀ m path payload,
      request_headers
        (http_request (authenticate parseInt h walletAddress signMessage c).2
           m path payload)
      = [("Content-Type", "application/json");
         ("Authorization", "Bearer " ++ token session)].
Proof.
  intros Hc Hs1 Hd1 Hsign Hv Hs2 Hd2 Htoken.
  unfold authenticate. rewrite Hc. simpl. rewrite Hs1, Hd1.
  assert (∃ sig,
            match signMessage with
            | Some sign => sign (challenge_message ch)
            | None =>
                Some "1234567890abcdef1234567890abcdef1234567890abcdef1234567890abcdef"
            end = Some sig) as [sig ->].
  { destruct signMessage as [sign|]; [|by eexists].
    by destruct (Hsign sign eq_refl) as [sig ->]; eexists. }
  rewrite Hv. simpl. rewrite Hs2, Hd2. simpl.
  split; [done|]. split; [done|].
  intros m path payload. unfold http_request. simpl.
  by rewrite (proj2 (String.eqb_neq _ _) Htoken).
Qed.

End ClientProperties.

Lemma push_success_persists_witness :
  ∃ response c' disk' calls,
    push (λ _, []) (λ _, NaN) online_host (Some "agent_1") sample_client ∅
    = (response, c', disk', calls)
    ∧ getUnsyncedProducts (store (localStore c')) = [].
Proof.
  destruct (push_success_persists (λ _, []) (λ _, NaN) online_host
              (Some "agent_1") sample_client ∅
              {| success := true; data := Some result_all_three;
                 error := None; headers := None |}
              (Some "50") (Some "950") result_all_three)
    as (response & c' & disk' & Hpush & _ & _ & Hstore & _);
    [reflexivity|by intros req|reflexivity|reflexivity|reflexivity|reflexivity|].
  eexists response, c', disk', _. split; [exact Hpush|].
  rewrite Hstore. reflexivity.
Defined.

Lemma authenticate_challenge_failure_witness :
  authenticate (λ _, NaN) auth_down "wallet_1" (Some (λ _, None)) sample_client
  = (Some {| success := false; data := None;
             error := Some {| code := "NETWORK_ERROR"; message := "fetch failed";
                              required := None; endpoint := None |};
             headers := None |}, sample_client).
Proof.
  apply (authenticate_challenge_failure (λ _, NaN) auth_down "wallet_1"
           (Some (λ _, None)) sample_client (Thrown (Some "fetch failed"))).
  - by intros req.
  - by left.
Defined.

Lemma authenticate_then_request_witness :
  request_headers
    (http_request
       (authenticate (λ _, NaN) auth_up "wallet_1"
          (Some (λ message, Some ("signed:" ++ message))) sample_client).2
       GET "/auth/me" None)
  = [("Content-Type", "application/json"); ("Authorization", "Bearer jwt-1")].
Proof.
  apply (authenticate_then_request (λ _, NaN) auth_up "wallet_1"
           (Some (λ message, Some ("signed:" ++ message))) sample_client
           {| challenge := "c-1"; challenge_message := "sign c-1" |}
           {| token := "jwt-1"; agent := sample_agent; is_new_agent := true |}
           {| success := true;
              data := Some {| challenge := "c-1";
                              challenge_message := "sign c-1" |};
              error := None; headers := None |}
           {| success := true;
              data := Some {| token := "jwt-1"; agent := sample_agent;
                              is_new_agent := true |};
              error := None; headers := None |}
           None None None None);
    try reflexivity; try (by intros req).
  intros sign [= <-]. by eexists.
Defined.

(** * Further properties of persistence and validation *)

(** X18. [save] never changes the store in memory or the store path, and
    never writes to another path. It either leaves the disk as it was (the
    write failed, or the [fs] module could not be imported) or puts the
    document of the current store at the store path; saving again changes
    nothing more. *)
Theorem save_frame fs_module writable disk m :
  store (save fs_module writable disk m).1 = store m
  ∧ storePath (save fs_module writable disk m).1 = storePath m
  ∧ (∀ path, path ≠ storePath m →
       (save fs_module writable disk m).2 !! path = disk !! path)
  ∧ ((save fs_module writable disk m).2 = disk
     ∨ (save fs_module writable disk m).2 !! storePath m
       = Some (Document (store_to_json (store m))))
  ∧ save fs_module writable (save fs_module writable disk m).2
         (save fs_module writable disk m).1
    = save fs_module writable disk m.
Proof.
  unfold save.
  destruct (fs m) eqn:Hfs, fs_module, writable; simpl; rewrite ?Hfs; simpl;
    repeat split; auto;
    try (intros path Hne; by rewrite lookup_insert_ne);
    try (right; by rewrite lookup_insert_eq);
    try (by rewrite insert_insert_eq);
    try (destruct m; simpl in *; by subst).
Qed.

(** X19. [load] gives up only on a file that parses to something that is
    not a store. A missing file leaves the manager's store as it is, an
    unreadable file or a failing [fs] import resets it to the default
    store, and loading again from the same disk changes nothing. *)
Theorem load_robust fs_module disk m :
  (load fs_module disk m = None →
     ∃ j, disk !! storePath m = Some (Document j) ∧ store_of_json j = None)
  ∧ (disk !! storePath m = None →
       store <$> load fs_module disk m
       = Some (if fs_module then store m else getDefaultStore))
  ∧ (∀ raw, disk !! storePath m = Some (Unreadable raw) →
       store <$> load fs_module disk m = Some getDefaultStore)
  ∧ (∀ m', load fs_module disk m = Some m' →
       storePath m' = storePath m ∧ load fs_module disk m' = Some m').
Proof.
  unfold load. destruct fs_module; simpl.
  - destruct (disk !! storePath m) as [[j|raw]|] eqn:Hfile; simpl.
    + split; [|split; [done|split; [done|]]].
      * intros Hnone. exists j. split; [done|].
        by destruct (store_of_json j).
      * intros m' Hm'. destruct (store_of_json j) as [s|] eqn:Hj; [|done].
        simpl in Hm'. injection Hm' as <-. simpl.
        by rewrite Hfile, Hj.
    + split; [done|]. split; [done|]. split; [done|].
      intros m' [= <-]. simpl. by rewrite Hfile.
    + split; [done|]. split; [done|]. split; [done|].
      intros m' [= <-]. simpl. by rewrite Hfile.
  - split; [done|]. split; [done|]. split; [done|]. by intros m' [= <-].
Qed.

(** When each check pushes to the [passed] array. *)
Lemma check_name_passes n :
  (∃ m, check_name n = inl m) ↔ (5 ≤ utf16_length n ≤ 100)%nat.
Proof.
  unfold check_name.
  destruct (Z.ltb_spec (Z.of_nat (utf16_length n)) 5),
           (Z.ltb_spec 100 (Z.of_nat (utf16_length n)));
    split; try (intros [m Hm]; discriminate); try lia; eauto.
Qed.

Lemma check_description_passes d :
  (∃ m, check_description d = inl m) ↔ (20 ≤ utf16_length d ≤ 2000)%nat.
Proof.
  unfold check_description.
  destruct (Z.ltb_spec (Z.of_nat (utf16_length d)) 20),
           (Z.ltb_spec 2000 (Z.of_nat (utf16_length d)));
    split; try (intros [m Hm]; discriminate); try lia; eauto.
Qed.

Lemma check_price_passes price :
  (∃ m, check_price price = inl m)
  ↔ (∀ z, price = Some z → 100 ≤ z ≤ 10000000).
Proof.
  unfold check_price. destruct price as [z|]; simpl.
  - destruct (Z.ltb_spec z 100), (Z.ltb_spec 10000000 z); split;
      try (intros [m Hm]; discriminate);
      try (intros Hz; specialize (Hz z eq_refl); lia);
      try (intros _ z' [= <-]; lia); eauto.
  - split; [by intros _ z|eauto].
Qed.

Lemma check_delivery_passes delivery payload :
  (∃ m, check_delivery delivery payload = inl m)
  ↔ (delivery = Some Download →
       ∃ j, payload = Some j ∧ json_truthy j = true).
Proof.
  unfold check_delivery.
  destruct (decide (delivery = Some Download)) as [Hd|Hd].
  - rewrite (bool_decide_eq_true_2 _ Hd). simpl.
    destruct payload as [j|]; simpl.
    + destruct (json_truthy j) eqn:Hj; simpl; split; eauto.
      * intros [m Hm]. discriminate.
      * intros H. destruct (H Hd) as (j' & [= <-] & Hj'). congruence.
    + split; [intros [m Hm]; discriminate|].
      intros H. by destruct (H Hd) as (j' & Hj' & _).
  - rewrite (bool_decide_eq_false_2 _ Hd). simpl. split; [done|eauto].
Qed.

Lemma check_category_passes category :
  (∃ m, check_category category = inl m)
  ↔ ∃ c, category = Some c ∧ c ∈ validCategories.
Proof.
  unfold check_category. destruct category as [c|]; simpl.
  - destruct (decide (c ∈ validCategories)) as [Hc|Hc].
    + rewrite (bool_decide_eq_true_2 _ Hc). simpl. split; eauto.
    + rewrite (bool_decide_eq_false_2 _ Hc). simpl.
      split; [intros [m Hm]; discriminate|].
      by intros (c' & [= <-] & Hc').
  - split; [intros [m Hm]; discriminate|]. by intros (c & Hc & _).
Qed.

Lemma checks_split (c1 c2 c3 c4 c5 : string + string) :
  (length (omap (λ r : string + string,
                   match r with inl m => Some m | inr _ => None end)
                [c1; c2; c3; c4; c5])
   + length (omap (λ r : string + string,
                     match r with inr m => Some m | inl _ => None end)
                  [c1; c2; c3; c4; c5]))%nat = 5%nat
  ∧ (omap (λ r : string + string,
             match r with inr m => Some m | inl _ => None end)
          [c1; c2; c3; c4; c5] = []
     ↔ (∃ m, c1 = inl m) ∧ (∃ m, c2 = inl m) ∧ (∃ m, c3 = inl m)
       ∧ (∃ m, c4 = inl m) ∧ (∃ m, c5 = inl m)).
Proof.
  destruct c1, c2, c3, c4, c5; simpl; (split; [done|]);
    (split;
     [try discriminate; eauto 10
     |intros ([? ?] & [? ?] & [? ?] & [? ?] & [? ?]); congruence]).
Qed.

(** The length of a string counts code units, not bytes: the four
    characters of "café" take five bytes. *)
Lemma utf16_length_cafe :
  utf16_length "café" = 4%nat ∧ String.length "café" = 5%nat.
Proof. split; reflexivity. Qed.

(** X20. [validateProduct] reports not-found exactly for an id that is not
    in the store, and otherwise runs its checks on the product found. The
    call throws exactly when the name or the description is undefined.
    Otherwise each of the five checks lands in exactly one of the two
    arrays, and the issues array is empty (the product is reported ready
    to publish) exactly when the name has 5 to 100 UTF-16 code units, the
    description 20 to 2000, the price, if it is a number, lies between 100
    and 10,000,000 (an undefined or NaN price passes), a download product
    has a delivery payload, and the category is one of the six valid
    ones. *)
Theorem validateProduct_verdict localId s :
  (validateProduct localId s = NotFound ↔ localId ∉ local_id <$> products s)
  ∧ (∀ p, getProduct localId s = Some p →
       validateProduct localId s = validate (view_of p))
  ∧ (∀ v, validate v = TypeError
          ↔ view_name v = None ∨ view_description v = None)
  ∧ ∀ v n d, view_name v = Some n → view_description v = Some d →
      ∃ passed issues,
        validate v = Report passed issues
        ∧ (length passed + length issues)%nat = 5%nat
        ∧ (issues = []
           ↔ (5 ≤ utf16_length n ≤ 100)%nat
             ∧ (20 ≤ utf16_length d ≤ 2000)%nat
             ∧ (∀ z, view_price v = Some z → 100 ≤ z ≤ 10000000)
             ∧ (view_delivery_type v = Some Download →
                  ∃ j, view_delivery_payload v = Some j
                       ∧ json_truthy j = true)
             ∧ (∃ c, view_category_id v = Some c ∧ c ∈ validCategories)).
Proof.
  split; [|split; [|split]].
  - unfold validateProduct. rewrite <- getProduct_None.
    destruct (getProduct localId s) as [p|]; [|done].
    split; [|done]. unfold validate. simpl. discriminate.
  - intros p Hp. unfold validateProduct. by rewrite Hp.
  - intros v. unfold validate.
    destruct (view_name v), (view_description v); split;
      first [discriminate | by intros [?|?] | by auto].
  - intros v n d Hn Hd. unfold validate. rewrite Hn, Hd.
    eexists _, _. split; [done|].
    destruct (checks_split (check_name n) (check_description d)
                (check_price (view_price v))
                (check_delivery (view_delivery_type v) (view_delivery_payload v))
                (check_category (view_category_id v))) as [Hlen Hnil].
    split; [exact Hlen|]. rewrite Hnil.
    by rewrite check_name_passes, check_description_passes, check_price_passes,
      check_delivery_passes, check_category_passes.
Qed.

(** The check accepts [valid_product]. *)
Lemma validateProduct_accepts :
  ∃ passed,
    validateProduct "local_v" (with_products [valid_product] getDefaultStore)
    = Report passed [].
Proof. eexists. reflexivity. Qed.

(** * Calls in sequence *)



Lemma findIndex_snoc_fresh localId ps p :
  localId ∉ local_id <$> ps → local_id p = localId →
  findIndex localId (ps ++ [p])%list = Some (length ps, p).
Proof.
  intros Hfresh Hp. induction ps as [|x ps IH].
  - simpl. rewrite findIndex_cons. by rewrite decide_True.
  - rewrite fmap_cons, not_elem_of_cons in Hfresh. destruct Hfresh as [Hx Hps].
    change ((x :: ps) ++ [p])%list with (x :: (ps ++ [p])%list).
    rewrite findIndex_cons, decide_False by done.
    by rewrite (IH Hps).
Qed.

(** X22. Deleting the product that [createProduct] just added, under an id
    no earlier product has, gives back the store as it was before the
    creation. *)
Theorem createProduct_then_delete product clock36 random36 created updated s :
  generateId clock36 random36 ∉ local_id <$> products s →
  deleteProduct
    (local_id (createProduct product clock36 random36 created updated s).2)
    (createProduct product clock36 random36 created updated s).1
  = (s, true).
Proof.
  intros Hfresh. unfold deleteProduct, createProduct. simpl.
  erewrite findIndex_snoc_fresh; [|exact Hfresh|reflexivity]. simpl.
  f_equal. destruct s as [v pr ps h ls]. unfold with_products. simpl. f_equal.
  clear. induction ps as [|x ps IH]; [done|]. simpl. by f_equal.
Qed.

Lemma createProduct_then_delete_witness :
  deleteProduct id_A store_A = (getDefaultStore, true).
Proof.
  apply (createProduct_then_delete sample_fields "m2x" "0.4fzyo82mvyr"
           "2026-01-01T00:00:00.000Z" "2026-01-01T00:00:00.001Z"
           getDefaultStore).
  simpl. apply not_elem_of_nil.
Defined.
